(** * mysql-admin-web: the InnoDB status parser, the process/transaction join
      and the process ordering of [src/pages/instance/[identifier]/index.tsx]

    The development embeds the pure part of the page's server-side code:
    [parseInnoDbStatus], the [processList.map] that attaches a transaction to
    every process, and the [sort] call with its comparator.

    Conventions of the embedding.
    - A JavaScript string is a [string]; every [ascii] stands for one UTF-16
      code unit below 256.
    - A JavaScript number is a [number]: NaN, the two infinities, or a finite
      value that is an integer.  [parseInt] and the subtraction round to the
      nearest double as the language does; the two zeros are identified
      (they print alike as property keys and subtract alike).
    - A plain object used as a dictionary is a [gmap] from the number used as
      key (property keys are the decimal print of the number, which is
      injective on the values above) to a reference; object literals live in
      a heap, a list indexed by reference, so that two names for one object
      are visible as such.
    - An exception is a value [Throw] of [completion]. *)

From Stdlib Require Import ZArith Ascii String List Lia Permutation Sorted.
From stdpp Require Import base option list gmap strings.

Local Open Scope string_scope.
Local Open Scope list_scope.

(** ** Numbers *)

Inductive number : Type :=
  | NaN : number
  | Infinity (negative : bool) : number
  | Num (z : Z) : number.

#[global] Instance number_eq_dec : EqDecision number.
Proof. solve_decision. Defined.

Definition number_code (x : number) : option (bool + Z) :=
  match x with
  | NaN => None
  | Infinity s => Some (inl s)
  | Num z => Some (inr z)
  end.

Definition number_decode (c : option (bool + Z)) : number :=
  match c with
  | None => NaN
  | Some (inl s) => Infinity s
  | Some (inr z) => Num z
  end.

#[global] Instance number_countable : Countable number.
Proof.
  apply (inj_countable' number_code number_decode).
  intros x. destruct x; reflexivity.
Defined.

(** Round an integer to the nearest double, ties to even: 53 significant
    bits, and an overflow to infinity from 2^1024 on. *)
Definition round_double (z : Z) : number :=
  let a := Z.abs z in
  let e := Z.log2 a in
  if (e <=? 52)%Z then Num z
  else
    let sh := (e - 52)%Z in
    let q := Z.shiftr a sh in
    let r := (a - Z.shiftl q sh)%Z in
    let half := Z.shiftl 1 (sh - 1) in
    let q' :=
      if (r <? half)%Z then q
      else if (half <? r)%Z then (q + 1)%Z
      else if Z.even q then q else (q + 1)%Z in
    let v := Z.shiftl q' sh in
    if (Z.shiftl 1 1024 <=? v)%Z then Infinity (z <? 0)%Z
    else Num (Z.sgn z * v).

(** [b - a] on numbers. *)
Definition number_sub (x y : number) : number :=
  match x, y with
  | NaN, _ | _, NaN => NaN
  | Infinity s, Infinity t => if Bool.eqb s t then NaN else Infinity s
  | Infinity s, Num _ => Infinity s
  | Num _, Infinity t => Infinity (negb t)
  | Num a, Num b => round_double (a - b)
  end.

(** [v > 0], false on NaN. *)
Definition number_pos (v : number) : bool :=
  match v with
  | NaN => false
  | Infinity s => negb s
  | Num z => (0 <? z)%Z
  end.

(** ** Strings *)

(** [s.startsWith(p)] *)
Definition startsWith (p s : string) : bool := String.prefix p s.

(** [s.indexOf(p)]: the first position at which [p] occurs, or -1. *)
Fixpoint indexOf_from (p s : string) (i : Z) : Z :=
  if startsWith p s then i
  else
    match s with
    | EmptyString => (-1)%Z
    | String _ s' => indexOf_from p s' (i + 1)%Z
    end.

Definition indexOf (p s : string) : Z := indexOf_from p s 0.

(** [s.includes(p)] *)
Fixpoint includes (p s : string) : bool :=
  if startsWith p s then true
  else
    match s with
    | EmptyString => false
    | String _ s' => includes p s'
    end.

Fixpoint string_drop (n : nat) (s : string) : string :=
  match n, s with
  | O, _ => s
  | S _, EmptyString => EmptyString
  | S n', String _ s' => string_drop n' s'
  end.

(** [s.slice(start)]: a negative start counts from the end. *)
Definition slice (start : Z) (s : string) : string :=
  let len := Z.of_nat (String.length s) in
  let from := if (start <? 0)%Z then Z.max (len + start) 0 else Z.min start len in
  string_drop (Z.to_nat from) s.

(** [s.split(sep)] for a separator of one character. *)
Fixpoint split (sep : ascii) (s : string) : list string :=
  match s with
  | EmptyString => [EmptyString]
  | String c s' =>
      if Ascii.eqb c sep then EmptyString :: split sep s'
      else
        match split sep s' with
        | [] => [String c EmptyString]
        | x :: xs => String c x :: xs
        end
  end.

(** [arr.findIndex(p)] *)
Fixpoint findIndex_from {A} (p : A -> bool) (arr : list A) (i : Z) : Z :=
  match arr with
  | [] => (-1)%Z
  | x :: arr' => if p x then i else findIndex_from p arr' (i + 1)%Z
  end.

Definition findIndex {A} (p : A -> bool) (arr : list A) : Z :=
  findIndex_from p arr 0.

(** [arr[i]]: a negative or too large index reads [undefined], here [None]. *)
Definition array_get {A} (arr : list A) (i : Z) : option A :=
  if (i <? 0)%Z then None else arr !! Z.to_nat i.

(** *** parseInt *)

(** White space that [parseInt] skips, among the code units below 256:
    TAB, LF, VT, FF, CR, SP and NBSP. *)
Definition is_white_space (c : ascii) : bool :=
  let n := nat_of_ascii c in
  ((9 <=? n) && (n <=? 13) || (n =? 32) || (n =? 160))%nat.

Fixpoint trim_start (s : string) : string :=
  match s with
  | String c s' => if is_white_space c then trim_start s' else s
  | EmptyString => s
  end.

(** The value of [c] as a digit in the radix, if it is one. *)
Definition digit_value (radix : Z) (c : ascii) : option Z :=
  let n := Z.of_nat (nat_of_ascii c) in
  let v :=
    if ((48 <=? n) && (n <=? 57))%Z then Some (n - 48)%Z
    else if ((97 <=? n) && (n <=? 122))%Z then Some (n - 87)%Z
    else if ((65 <=? n) && (n <=? 90))%Z then Some (n - 55)%Z
    else None in
  match v with
  | Some d => if (d <? radix)%Z then Some d else None
  | None => None
  end.

(** The integer written by the longest prefix of digits of [s]; [acc] is
    [None] as long as no digit was read. *)
Fixpoint read_digits (radix : Z) (s : string) (acc : option Z) : option Z :=
  match s with
  | EmptyString => acc
  | String c s' =>
      match digit_value radix c with
      | Some d => read_digits radix s' (Some (default 0%Z acc * radix + d)%Z)
      | None => acc
      end
  end.

(** [parseInt(s)] with no radix argument. *)
Definition parseInt (s : string) : number :=
  let s1 := trim_start s in
  let '(negative, s2) :=
    match s1 with
    | String "-" t => (true, t)
    | String "+" t => (false, t)
    | _ => (false, s1)
    end in
  let '(radix, s3) :=
    match s2 with
    | String "0" (String "x" t) => (16%Z, t)
    | String "0" (String "X" t) => (16%Z, t)
    | _ => (10%Z, s2)
    end in
  match read_digits radix s3 None with
  | None => NaN
  | Some m => round_double (if negative then - m else m)
  end.

(** [parseInt(x)] where [x] may be [undefined]: the argument is first
    converted to a string. *)
Definition parseInt_opt (x : option string) : number :=
  parseInt (default "undefined" x).

(** ** Completions *)

Inductive error : Type := TypeError.

Inductive completion (A : Type) : Type :=
  | Return (a : A)
  | Throw (e : error).
Arguments Return {A} a.
Arguments Throw {A} e.

Definition completion_map {A B} (f : A -> B) (c : completion A) : completion B :=
  match c with
  | Return a => Return (f a)
  | Throw e => Throw e
  end.

(** ** Data *)

(** [type TransactionInfo] *)
Record TransactionInfo : Type := mkTransactionInfo {
  activeTime : number;
  info : list string
}.

(** [type Process].  No code reads [Progress]; a fraction there is outside
    [number] and is not represented. *)
Record Process : Type := mkProcess {
  Id : number;
  User : string;
  Host : string;
  db : option string;
  Command : string;
  Time : number;
  State : string;
  Info : string;
  Progress : number
}.

(** [type ProcessWithTransaction = Process & { transaction }]; the
    transaction is the object the reference points to once the parser has
    returned (nothing writes to it afterwards). *)
Record ProcessWithTransaction : Type := mkProcessWithTransaction {
  pId : number;
  pUser : string;
  pHost : string;
  pdb : option string;
  pCommand : string;
  pTime : number;
  pState : string;
  pInfo : string;
  pProgress : number;
  transaction : option TransactionInfo
}.

(** [type TransactionInfoDict]: the object returned by the parser, with the
    heap its references point into. *)
Record TransactionInfoDict : Type := mkDict {
  objects : list TransactionInfo;
  entries : gmap number nat
}.

(** [dict[k]]: the object stored under the key, if any. *)
Definition dict_get (d : TransactionInfoDict) (k : number) : option TransactionInfo :=
  entries d !! k ≫= λ r, objects d !! r.

(** ** parseInnoDbStatus *)

Definition section_marker : string := "LIST OF TRANSACTIONS FOR EACH SESSION:".
Definition terminator_marker : string := "--------".
Definition transaction_marker : string := "---TRANSACTION".
Definition thread_marker : string := "MariaDB thread id".
Definition active_marker : string := ", ACTIVE".

(** The variables of the loop: the heap of the object literals allocated so
    far, [let transaction] (a reference) and [const transactions]. *)
Record parser_state : Type := mkState {
  heap : list TransactionInfo;
  current : nat;
  transactions : gmap number nat
}.

(** Before the loop: [transaction = { activeTime: -1, info: [] }] and
    [transactions = {}]. *)
Definition initial_state : parser_state :=
  {| heap := [ {| activeTime := Num (-1); info := [] |} ];
     current := 0;
     transactions := ∅ |}.

(** [t.info.push(line)] *)
Definition push_info (line : string) (t : TransactionInfo) : TransactionInfo :=
  {| activeTime := activeTime t; info := info t ++ [line] |}.

(** [if (line.startsWith('---TRANSACTION')) { ... }] *)
Definition start_transaction (line : string) (st : parser_state) : parser_state :=
  if startsWith transaction_marker line then
    let index := indexOf active_marker line in
    let activeTime := parseInt (slice (index + 8) line) in
    {| heap := heap st ++ [ {| activeTime := activeTime; info := [] |} ];
       current := length (heap st);
       transactions := transactions st |}
  else st.

(** [if (line.startsWith('MariaDB thread id')) { ... }] *)
Definition assign_thread (line : string) (st : parser_state) : parser_state :=
  if startsWith thread_marker line then
    let threadId := parseInt_opt (split " " line !! 3%nat) in
    {| heap := heap st;
       current := current st;
       transactions := <[threadId := current st]> (transactions st) |}
  else st.

(** [transaction.info.push(line)] *)
Definition push_line (line : string) (st : parser_state) : parser_state :=
  {| heap := alter (push_info line) (current st) (heap st);
     current := current st;
     transactions := transactions st |}.

(** The body of the loop after the test for the terminator. *)
Definition loop_body (line : string) (st : parser_state) : parser_state :=
  push_line line (assign_thread line (start_transaction line st)).

(** [for (let i = ...; i < arr.length; i++)] run for [n] more rounds.  A
    line that is [undefined] makes [line.startsWith] throw a TypeError. *)
Fixpoint for_loop (n : nat) (i : Z) (arr : list string) (st : parser_state)
  : completion parser_state :=
  match n with
  | O => Return st
  | S n' =>
      match array_get arr i with
      | None => Throw TypeError
      | Some line =>
          if startsWith terminator_marker line then Return st
          else for_loop n' (i + 1)%Z arr (loop_body line st)
      end
  end.

Definition newline : ascii := "010"%char.

(** The parser up to its [return], with the loop variables still visible. *)
Definition parse_state (innoDbStatus : string) : completion parser_state :=
  let splitInnoDbStatus := split newline innoDbStatus in
  let transactionsStartIndex :=
    findIndex (includes section_marker) splitInnoDbStatus in
  let rounds :=
    Z.to_nat (Z.of_nat (length splitInnoDbStatus) - transactionsStartIndex) in
  for_loop rounds transactionsStartIndex splitInnoDbStatus initial_state.

Definition parseInnoDbStatus (innoDbStatus : string) : completion TransactionInfoDict :=
  completion_map (λ st, {| objects := heap st; entries := transactions st |})
    (parse_state innoDbStatus).

(** ** getServerSideProps: the join and the ordering *)

(** [{ ...process, transaction }] with
    [transaction = innoDbStatus[process.Id] || null]. *)
Definition withTransaction (innoDbStatus : TransactionInfoDict) (process : Process)
  : ProcessWithTransaction :=
  {| pId := Id process;
     pUser := User process;
     pHost := Host process;
     pdb := db process;
     pCommand := Command process;
     pTime := Time process;
     pState := State process;
     pInfo := Info process;
     pProgress := Progress process;
     transaction := dict_get innoDbStatus (Id process) |}.

(** [processList.map((process) => ...)] *)
Definition processListWithTransaction (innoDbStatus : TransactionInfoDict)
    (processList : list Process) : list ProcessWithTransaction :=
  map (withTransaction innoDbStatus) processList.

(** What the comparator returns. *)
Definition compareProcesses (a b : ProcessWithTransaction) : number :=
  match transaction a, transaction b with
  | Some _, None => Num (-1)
  | None, Some _ => Num 1
  | Some ta, Some tb => number_sub (activeTime tb) (activeTime ta)
  | None, None => number_sub (pTime b) (pTime a)
  end.

(** [Array.prototype.sort] is a stable sort; for a consistent comparator its
    result is the one stable sorted arrangement, which every engine
    returns.  It is embedded as a stable insertion sort: an element moves
    behind a neighbour only when the comparator is positive on the pair.
    A comparator that answers NaN on some pairs (an active time that is
    NaN) is not consistent: the language then leaves the order to the
    engine, and this function is no model of it.  What is stated below
    about the order of the rows is stated for finite keys ([finite_key]),
    where the comparator is consistent ([sort_is_the_stable_order]); what
    is stated for all lists holds of every rearrangement. *)
Fixpoint sort_insert {A} (cmp : A -> A -> number) (x : A) (l : list A) : list A :=
  match l with
  | [] => [x]
  | y :: l' =>
      if number_pos (cmp x y) then y :: sort_insert cmp x l'
      else x :: l
  end.

Fixpoint sort {A} (cmp : A -> A -> number) (l : list A) : list A :=
  match l with
  | [] => []
  | x :: l' => sort_insert cmp x (sort cmp l')
  end.

(** The part of [getServerSideProps] after the two queries: the process
    list and the status text in, [repo.processList] out. *)
Definition getServerSideProps (processList : list Process) (innoDbStatusString : string)
  : completion (list ProcessWithTransaction) :=
  completion_map
    (λ innoDbStatus,
       sort compareProcesses (processListWithTransaction innoDbStatus processList))
    (parseInnoDbStatus innoDbStatusString).

(** ** The lines the loop reads *)

Definition isTerminator (line : string) : bool := startsWith terminator_marker line.
Definition isStart (line : string) : bool := startsWith transaction_marker line.
Definition isThread (line : string) : bool := startsWith thread_marker line.

(** The key an id line is stored under. *)
Definition threadId (line : string) : number :=
  parseInt_opt (split " " line !! 3%nat).

(** The lines before the first terminator line. *)
Fixpoint before_terminator (ls : list string) : list string :=
  match ls with
  | [] => []
  | l :: ls' => if isTerminator l then [] else l :: before_terminator ls'
  end.

(** The lines between the first line with the section marker (included) and
    the first terminator line after it (excluded). *)
Definition read_lines (innoDbStatus : string) : list string :=
  let arr := split newline innoDbStatus in
  let idx := findIndex (includes section_marker) arr in
  before_terminator (drop (Z.to_nat idx) arr).

(** The loop body folded over a list of lines. *)
Definition run (ls : list string) (st : parser_state) : parser_state :=
  foldl (λ st line, loop_body line st) st ls.

(** The lines of [ls] that belong to block [r], when the block open before
    [ls] has number [n]: a transaction-start line opens the next block and is
    its first line. *)
Fixpoint block_from (n r : nat) (ls : list string) : list string :=
  match ls with
  | [] => []
  | l :: ls' =>
      let n' := if isStart l then S n else n in
      if decide (n' = r) then l :: block_from n' r ls' else block_from n' r ls'
  end.

(** Block 0 holds the lines before the first transaction-start line. *)
Definition block (r : nat) (ls : list string) : list string := block_from 0 r ls.

(** A state is well formed when the current object is the last allocated. *)
Definition wf_state (st : parser_state) : Prop :=
  length (heap st) = S (current st).

(** The detail lines seen through reference [r]; none when nothing is
    allocated there yet. *)
Definition info_at (h : list TransactionInfo) (r : nat) : list string :=
  from_option info [] (h !! r).

(** The nine fields of the process inside a joined process. *)
Definition process_of (p : ProcessWithTransaction) : Process :=
  {| Id := pId p;
     User := pUser p;
     Host := pHost p;
     db := pdb p;
     Command := pCommand p;
     Time := pTime p;
     State := pState p;
     Info := pInfo p;
     Progress := pProgress p |}.

(** The key the comparator orders by: the active time of the transaction
    for a process that has one, the time of the process otherwise. *)
Definition sort_key (p : ProcessWithTransaction) : number + number :=
  match transaction p with
  | Some t => inl (activeTime t)
  | None => inr (pTime p)
  end.

(** [a] need not come behind [b]: the comparator is not positive on them. *)
Definition in_order {A} (cmp : A → A → number) (a b : A) : Prop :=
  number_pos (cmp a b) = false.

(** ** Sample reports *)

Definition nl : string := String newline EmptyString.

Definition marker_line : string := "LIST OF TRANSACTIONS FOR EACH SESSION:".
Definition start_line : string := "---TRANSACTION 1, ACTIVE 5 sec".
Definition thread_line : string := "MariaDB thread id 7, foo".

(** Scenario A of the specification. *)
Definition scenarioA : string :=
  marker_line +:+ nl +:+ start_line +:+ nl +:+ thread_line +:+ nl +:+
  "--------" +:+ nl.

(** Scenario B: scenario A without its id line. *)
Definition scenarioB : string :=
  marker_line +:+ nl +:+ start_line +:+ nl +:+ "--------" +:+ nl.

(** A report without the section. *)
Definition report_without_section : string :=
  "BACKGROUND THREAD" +:+ nl +:+ "--------" +:+ nl.

(** A report whose transaction has no active time, as the server prints it
    for an idle session. *)
Definition not_started_line : string := "---TRANSACTION 421, not started".
Definition report_not_started : string :=
  marker_line +:+ nl +:+ not_started_line +:+ nl +:+ thread_line +:+ nl +:+
  "--------" +:+ nl.

(** A report with two id lines in one block. *)
Definition report_two_threads : string :=
  marker_line +:+ nl +:+ start_line +:+ nl +:+ thread_line +:+ nl +:+
  "MariaDB thread id 8, bar" +:+ nl +:+ "--------" +:+ nl.

(** What the parser returns on it. *)
Definition dict_two_threads : TransactionInfoDict :=
  {| objects :=
       [ {| activeTime := Num (-1); info := [marker_line] |};
         {| activeTime := Num 5;
            info := [start_line; thread_line; "MariaDB thread id 8, bar"] |} ];
     entries := <[Num 8 := 1%nat]> (<[Num 7 := 1%nat]> ∅) |}.

(** A process with the given id and time. *)
Definition sample_process (id time : Z) : Process :=
  {| Id := Num id; User := "app"; Host := "localhost"; db := None;
     Command := "Sleep"; Time := Num time; State := ""; Info := "";
     Progress := Num 0 |}.

(** A report with text after the id line of a block. *)
Definition report_with_query : string :=
  marker_line +:+ nl +:+ start_line +:+ nl +:+ thread_line +:+ nl +:+
  "UPDATE t SET a = 1" +:+ nl +:+ "--------" +:+ nl.

(** ** Invariants of the objects *)

(** Object 0 is the accumulator made before the loop; every other object was
    made by a transaction-start line, which is its first line. *)
Definition object_ok (r : nat) (t : TransactionInfo) : Prop :=
  match r with
  | O => activeTime t = Num (-1) ∧ Forall (λ l, isStart l = false) (info t)
  | S _ =>
      ∃ s rest,
        info t = s :: rest ∧ isStart s = true
        ∧ activeTime t = parseInt (slice (indexOf active_marker s + 8) s)
        ∧ Forall (λ l, isStart l = false) rest
  end.

Definition heap_ok (st : parser_state) : Prop :=
  ∀ r t, heap st !! r = Some t → object_ok r t.

(** ** Decimal numerals, to state what the parser reads *)

(** The character of the digit [d]. *)
Definition digit_char (d : nat) : ascii := ascii_of_nat (48 + d).

(** The numeral with the digits [ds], most significant first. *)
Fixpoint digits_string (ds : list nat) : string :=
  match ds with
  | [] => EmptyString
  | d :: ds' => String (digit_char d) (digits_string ds')
  end.

(** The integer the numeral stands for. *)
Definition digits_value (ds : list nat) : Z :=
  foldl (λ acc d, acc * 10 + Z.of_nat d)%Z 0%Z ds.

(** What may follow a numeral for [parseInt] to stop there: nothing, or a
    character that is no digit (and no [x], which after a lone 0 would start
    a hexadecimal numeral). *)
Definition ends_numeral (tail : string) : Prop :=
  match tail with
  | EmptyString => True
  | String c _ => digit_value 10 c = None ∧ c ≠ "x"%char ∧ c ≠ "X"%char
  end.

(** ** More of the numbers: the operations of the page *)

(** [x + y] *)
Definition number_add (x y : number) : number :=
  match x, y with
  | NaN, _ | _, NaN => NaN
  | Infinity s, Infinity t => if Bool.eqb s t then Infinity s else NaN
  | Infinity s, Num _ => Infinity s
  | Num _, Infinity t => Infinity t
  | Num a, Num b => round_double (a + b)
  end.

(** [x * y] *)
Definition number_mul (x y : number) : number :=
  match x, y with
  | NaN, _ | _, NaN => NaN
  | Infinity s, Infinity t => Infinity (xorb s t)
  | Infinity s, Num b =>
      if (b =? 0)%Z then NaN else Infinity (xorb s (b <? 0)%Z)
  | Num a, Infinity t =>
      if (a =? 0)%Z then NaN else Infinity (xorb (a <? 0)%Z t)
  | Num a, Num b => round_double (a * b)
  end.

(** [x / y].  The quotient of two finite numbers is in general a fraction,
    which [number] does not hold: that case is left to [quotient]. *)
Definition number_div (quotient : Z → Z → number) (x y : number) : number :=
  match x, y with
  | NaN, _ | _, NaN => NaN
  | Infinity s, Infinity t => NaN
  | Infinity s, Num b => Infinity (xorb s (b <? 0)%Z)
  | Num a, Infinity t => Num 0
  | Num a, Num b => quotient a b
  end.

(** [x > y], false when either is NaN. *)
Definition number_gt (x y : number) : bool :=
  match x, y with
  | NaN, _ | _, NaN => false
  | Infinity s, Infinity t => negb s && t
  | Infinity s, Num _ => negb s
  | Num _, Infinity t => t
  | Num a, Num b => (b <? a)%Z
  end.

(** The truth value of a number in a condition: false for 0 and NaN. *)
Definition number_truthy (x : number) : bool :=
  match x with
  | NaN => false
  | Infinity _ => true
  | Num z => negb (z =? 0)%Z
  end.

(** The conversion to a 32-bit integer that the bit operators apply. *)
Definition wrap32 (z : Z) : Z :=
  let m := (z mod 2 ^ 32)%Z in
  if (m <? 2 ^ 31)%Z then m else (m - 2 ^ 32)%Z.

Definition ToInt32 (x : number) : Z :=
  match x with
  | Num z => wrap32 z
  | _ => 0%Z
  end.

(** [x << k], [x >> k] and [x & y]; the shift count is taken modulo 32. *)
Definition shift_left (x : number) (k : Z) : number :=
  Num (wrap32 (Z.shiftl (ToInt32 x) (k mod 32))).

Definition shift_right (x : number) (k : Z) : number :=
  Num (Z.shiftr (ToInt32 x) (k mod 32)).

Definition bit_and (x y : number) : number :=
  Num (Z.land (ToInt32 x) (ToInt32 y)).

(** ** More of the strings *)

(** [s.slice(start, end)] *)
Definition slice_range (start stop : Z) (s : string) : string :=
  let len := Z.of_nat (String.length s) in
  let from := if (start <? 0)%Z then Z.max (len + start) 0 else Z.min start len in
  let to := if (stop <? 0)%Z then Z.max (len + stop) 0 else Z.min stop len in
  let span := Z.max (to - from) 0 in
  String.substring (Z.to_nat from) (Z.to_nat span) s.

(** [parseInt(s, radix)] *)
Definition parseInt_radix (s : string) (radix : Z) : number :=
  let s1 := trim_start s in
  let '(negative, s2) :=
    match s1 with
    | String "-" t => (true, t)
    | String "+" t => (false, t)
    | _ => (false, s1)
    end in
  let r := wrap32 radix in
  if negb (r =? 0)%Z && ((r <? 2)%Z || (36 <? r)%Z) then NaN
  else
    let stripPrefix := (r =? 0)%Z || (r =? 16)%Z in
    let r := if (r =? 0)%Z then 10%Z else r in
    let '(r, s3) :=
      if stripPrefix then
        match s2 with
        | String "0" (String "x" t) => (16%Z, t)
        | String "0" (String "X" t) => (16%Z, t)
        | _ => (r, s2)
        end
      else (r, s2) in
    match read_digits r s3 None with
    | None => NaN
    | Some m => round_double (if negative then - m else m)
    end.

(** [arr.join(sep)] *)
Definition join (sep : string) (arr : list string) : string :=
  String.concat sep arr.

(** The digit [d] below 16 as [toString(16)] writes it. *)
Definition hex_digit (d : Z) : ascii :=
  if (d <? 10)%Z then ascii_of_nat (Z.to_nat (48 + d))
  else ascii_of_nat (Z.to_nat (87 + d)).

(** The digits of [v >= 0] in radix 16, in front of [acc]. *)
Fixpoint hex_digits (fuel : nat) (v : Z) (acc : string) : string :=
  match fuel with
  | O => acc
  | S fuel' =>
      let acc' := String (hex_digit (v mod 16)) acc in
      if (v <? 16)%Z then acc' else hex_digits fuel' (v / 16) acc'
  end.

(** [x.toString(16)] *)
Definition toString16 (x : number) : string :=
  match x with
  | NaN => "NaN"
  | Infinity s => if s then "-Infinity" else "Infinity"
  | Num z =>
      let digits := hex_digits (S (Z.to_nat (Z.log2 (Z.abs z)))) (Z.abs z) "" in
      if (z <? 0)%Z then String "-" digits else digits
  end.

(** ** The page: colours and the row class *)

(** The first loop of [stringToColor]: [hash] after the characters of [s]. *)
Fixpoint hash_loop (s : string) (hash : number) : number :=
  match s with
  | EmptyString => hash
  | String c s' =>
      hash_loop s'
        (number_add (Num (Z.of_nat (nat_of_ascii c)))
           (number_sub (shift_left hash 5) hash))
  end.

(** One round of the second loop. *)
Definition colour_step (hash : number) (colour : string) (i : Z) : string :=
  let value := bit_and (shift_right hash (i * 8)) (Num 255) in
  colour +:+ slice (-2) ("00" +:+ toString16 value).

Definition stringToColor (str : option string) : string :=
  match str with
  | None | Some EmptyString => "#000000"
  | Some str =>
      let hash := hash_loop str (Num 0) in
      foldl (colour_step hash) "#" [0; 1; 2]%Z
  end.

Definition blackOrWhite (quotient : Z → Z → number) (hex : string) : string :=
  let r := parseInt_radix (slice_range 1 2 hex) 16 in
  let g := parseInt_radix (slice_range 3 2 hex) 16 in
  let b := parseInt_radix (slice_range 5 2 hex) 16 in
  let brightness :=
    number_div quotient
      (number_add
         (number_add (number_mul r (Num 299)) (number_mul g (Num 587)))
         (number_mul b (Num 114)))
      (Num 1000) in
  if number_gt brightness (Num 155) then "#000000" else "#ffffff".

(** The [className] of a row of the table. *)
Definition rowClassName (item : ProcessWithTransaction) : string :=
  match transaction item with
  | Some t =>
      if number_truthy (activeTime t) && number_gt (activeTime t) (Num 10)
      then "bg-red-300" else ""
  | None => ""
  end.

(** A row orders by a finite number. *)
Definition finite_key (p : ProcessWithTransaction) : Prop :=
  ∃ z, sort_key p = inl (Num z) ∨ sort_key p = inr (Num z).

(** The order the comparator is meant to give, on rows with finite keys:
    rows with a transaction first, each group by descending number. *)
Definition rank_le (a b : ProcessWithTransaction) : Prop :=
  match sort_key a, sort_key b with
  | inl (Num x), inl (Num y) => (y <= x)%Z
  | inl (Num _), inr (Num _) => True
  | inr (Num x), inr (Num y) => (y <= x)%Z
  | _, _ => False
  end.

(** Three joined processes: one without a transaction, two with the
    transaction of [dict_two_threads]. *)
Definition sample_rows : list ProcessWithTransaction :=
  processListWithTransaction dict_two_threads
    [sample_process 1 30; sample_process 7 0; sample_process 8 0].

(** A mapping with a transaction active for 50 s and one for 20 s, and
    three joined processes, two of them with these transactions. *)
Definition dict_long : TransactionInfoDict :=
  {| objects := [ {| activeTime := Num 50; info := [] |};
                  {| activeTime := Num 20; info := [] |} ];
     entries := <[Num 8 := 1%nat]> (<[Num 7 := 0%nat]> ∅) |}.

Definition sample_rows_long : list ProcessWithTransaction :=
  processListWithTransaction dict_long
    [sample_process 1 30; sample_process 8 0; sample_process 7 0].

(** ** To state what [stringToColor] computes *)

(** The two digits of a byte in radix 16. *)
Definition byte_hex (v : Z) : string :=
  String (hex_digit (v / 16)) (String (hex_digit (v mod 16)) EmptyString).

(** The colour written from the three low bytes of [h], lowest first. *)
Definition colour_of_hash (h : Z) : string :=
  "#" +:+ byte_hex (h mod 256) +:+ byte_hex (h / 256 mod 256)
      +:+ byte_hex (h / 65536 mod 256).

(** The polynomial hash with multiplier 31, over the integers:
    [31^(n-1) c1 + ... + 31 c(n-1) + cn] from [h = 0]. *)
Fixpoint poly_hash (s : string) (h : Z) : Z :=
  match s with
  | EmptyString => h
  | String c s' => poly_hash s' (31 * h + Z.of_nat (nat_of_ascii c))
  end.

(** A digit of radix 16 in lower case. *)
Definition is_hex_char (c : ascii) : bool :=
  let n := nat_of_ascii c in
  ((48 <=? n) && (n <=? 57) || (97 <=? n) && (n <=? 102))%nat.

(** [#] and six digits of radix 16. *)
Definition is_colour (s : string) : Prop :=
  ∃ c1 c2 c3 c4 c5 c6,
    s = String "#" (String c1 (String c2 (String c3 (String c4
          (String c5 (String c6 EmptyString))))))
    ∧ Forall (λ c, is_hex_char c = true) [c1; c2; c3; c4; c5; c6].

(** A report with seven transactions, of the sessions 1 to 7: active for
    0 s, 1 s, not started, 0 s, not started, 1 s and 1 s. *)
Definition report_mixed : string :=
  marker_line +:+ nl +:+
  "---TRANSACTION 11, ACTIVE 0 sec" +:+ nl +:+ "MariaDB thread id 1, a" +:+ nl +:+
  "---TRANSACTION 12, ACTIVE 1 sec" +:+ nl +:+ "MariaDB thread id 2, b" +:+ nl +:+
  "---TRANSACTION 13, not started" +:+ nl +:+ "MariaDB thread id 3, c" +:+ nl +:+
  "---TRANSACTION 14, ACTIVE 0 sec" +:+ nl +:+ "MariaDB thread id 4, d" +:+ nl +:+
  "---TRANSACTION 15, not started" +:+ nl +:+ "MariaDB thread id 5, e" +:+ nl +:+
  "---TRANSACTION 16, ACTIVE 1 sec" +:+ nl +:+ "MariaDB thread id 6, f" +:+ nl +:+
  "---TRANSACTION 17, ACTIVE 1 sec" +:+ nl +:+ "MariaDB thread id 7, g" +:+ nl +:+
  "--------" +:+ nl.

(** The processes of the sessions 1 to 7, in this order. *)
Definition processes_mixed : list Process :=
  map (λ id, sample_process id 0) [1; 2; 3; 4; 5; 6; 7]%Z.

(** A report in which session 7 has an id line in two blocks, and the
    second block one more id line, of session 8. *)
Definition second_start_line : string := "---TRANSACTION 2, ACTIVE 9 sec".
Definition second_thread_line : string := "MariaDB thread id 7, again".
Definition report_key_twice : string :=
  marker_line +:+ nl +:+ start_line +:+ nl +:+ thread_line +:+ nl +:+
  second_start_line +:+ nl +:+ second_thread_line +:+ nl +:+
  "MariaDB thread id 8, bar" +:+ nl +:+ "--------" +:+ nl.

(** Four joined processes: sessions 7 and 8 with the transactions of
    [dict_long] (50 s and 20 s), sessions 1 and 2 without, their times 10 s
    and 30 s. *)
Definition sample_rows_mixed : list ProcessWithTransaction :=
  processListWithTransaction dict_long
    [sample_process 1 10; sample_process 8 0; sample_process 2 30; sample_process 7 0].

(** The rows of the input that have a transaction, and those that have
    none. *)
Definition has_transaction (p : ProcessWithTransaction) : Prop :=
  is_Some (transaction p).

Definition no_transaction (p : ProcessWithTransaction) : Prop :=
  transaction p = None.

#[global] Instance has_transaction_dec (p : ProcessWithTransaction) :
  Decision (has_transaction p).
Proof. unfold has_transaction. apply _. Defined.

#[global] Instance no_transaction_dec (p : ProcessWithTransaction) :
  Decision (no_transaction p).
Proof.
  unfold no_transaction.
  destruct (transaction p); [right; discriminate | left; reflexivity].
Defined.

(** * Lemmas *)

(** ** Arrays and the loop *)

Lemma findIndex_from_spec {A} (p : A -> bool) (arr : list A) (i : Z) :
  (findIndex_from p arr i = -1 ∧ (0 <= i → Forall (λ x, p x = false) arr))%Z
  ∨ (∃ j x, findIndex_from p arr i = (i + Z.of_nat j)%Z ∧ arr !! j = Some x ∧ p x = true).
Proof.
  revert i. induction arr as [|x arr IH]; intros i; simpl.
  - left. split; [reflexivity | constructor].
  - destruct (p x) eqn:Hx.
    + right. exists 0%nat, x. split; [lia | split; [reflexivity | assumption]].
    + destruct (IH (i + 1)%Z) as [[H1 H2] | (j & y & H1 & H2 & H3)].
      * left. split; [assumption |].
        intros Hi. constructor; [assumption | apply H2; lia].
      * right. exists (S j), y. split; [lia | split; assumption].
Qed.

Lemma findIndex_absent {A} (p : A -> bool) (arr : list A) :
  Forall (λ x, p x = false) arr → findIndex p arr = (-1)%Z.
Proof.
  unfold findIndex. intros Hall.
  destruct (findIndex_from_spec p arr 0) as [[H _] | (j & x & _ & Hj & Hx)]; [assumption |].
  rewrite Forall_lookup in Hall. specialize (Hall j x Hj). congruence.
Qed.

Lemma findIndex_present {A} (p : A -> bool) (arr : list A) (x : A) :
  x ∈ arr → p x = true →
  ∃ j y, findIndex p arr = Z.of_nat j ∧ arr !! j = Some y ∧ p y = true.
Proof.
  unfold findIndex. intros Hin Hx.
  destruct (findIndex_from_spec p arr 0) as [[_ H] | (j & y & H1 & H2 & H3)].
  - rewrite Forall_forall in H. specialize (H ltac:(lia) x Hin). congruence.
  - exists j, y. split; [lia | split; assumption].
Qed.

Lemma array_get_nat {A} (arr : list A) (j : nat) :
  array_get arr (Z.of_nat j) = arr !! j.
Proof.
  unfold array_get. destruct (Z.ltb_spec (Z.of_nat j) 0); [lia |].
  by rewrite Nat2Z.id.
Qed.

(** From an index inside the array on, the loop never throws: it folds its
    body over the lines up to the first terminator. *)
Lemma for_loop_run (n j : nat) (arr : list string) (st : parser_state) :
  n = (length arr - j)%nat →
  for_loop n (Z.of_nat j) arr st =
  Return (run (before_terminator (drop j arr)) st).
Proof.
  revert j st. induction n as [|n IH]; intros j st Hn; simpl.
  - rewrite drop_ge by lia. reflexivity.
  - rewrite array_get_nat.
    destruct (arr !! j) as [line|] eqn:Hj.
    2:{ apply lookup_ge_None in Hj. lia. }
    assert (Hlt : (j < length arr)%nat) by (apply lookup_lt_Some in Hj; exact Hj).
    rewrite (drop_S _ _ _ Hj). simpl.
    fold (isTerminator line).
    destruct (isTerminator line) eqn:Ht; [reflexivity |]. simpl.
    replace (Z.of_nat j + 1)%Z with (Z.of_nat (S j)) by lia.
    apply IH. lia.
Qed.

Lemma split_nonempty (sep : ascii) (s : string) : split sep s ≠ [].
Proof.
  destruct s as [|c s]; simpl; [discriminate |].
  destruct (Ascii.eqb c sep); [discriminate |].
  destruct (split sep s); discriminate.
Qed.

(** Without a line that has the section marker the parser throws. *)
Lemma parse_state_no_marker (innoDbStatus : string) :
  Forall (λ line, includes section_marker line = false) (split newline innoDbStatus) →
  parse_state innoDbStatus = Throw TypeError.
Proof.
  intros Hall. unfold parse_state.
  rewrite (findIndex_absent _ _ Hall).
  replace (Z.to_nat (Z.of_nat (length (split newline innoDbStatus)) - -1))
    with (S (length (split newline innoDbStatus))) by lia.
  reflexivity.
Qed.

Lemma parseInnoDbStatus_no_marker (innoDbStatus : string) :
  Forall (λ line, includes section_marker line = false) (split newline innoDbStatus) →
  parseInnoDbStatus innoDbStatus = Throw TypeError.
Proof.
  intros Hall. unfold parseInnoDbStatus.
  by rewrite (parse_state_no_marker _ Hall).
Qed.

(** With such a line the parser returns the state reached over the lines it
    reads. *)
Lemma parse_state_marker (innoDbStatus line : string) :
  line ∈ split newline innoDbStatus → includes section_marker line = true →
  parse_state innoDbStatus = Return (run (read_lines innoDbStatus) initial_state).
Proof.
  intros Hin Hm. unfold parse_state, read_lines.
  destruct (findIndex_present _ _ _ Hin Hm) as (j & y & Hj & Hy & _).
  apply lookup_lt_Some in Hy.
  rewrite Hj, Nat2Z.id.
  replace (Z.to_nat (Z.of_nat (length (split newline innoDbStatus)) - Z.of_nat j))
    with (length (split newline innoDbStatus) - j)%nat by lia.
  by apply for_loop_run.
Qed.

(** ** One round of the loop *)

Lemma loop_body_current (line : string) (st : parser_state) :
  current (loop_body line st) = if isStart line then length (heap st) else current st.
Proof.
  unfold loop_body, push_line, assign_thread, start_transaction.
  fold (isStart line) (isThread line).
  destruct (isStart line), (isThread line); reflexivity.
Qed.

Lemma loop_body_transactions (line : string) (st : parser_state) :
  transactions (loop_body line st) =
  if isThread line
  then <[threadId line := current (loop_body line st)]> (transactions st)
  else transactions st.
Proof.
  rewrite loop_body_current.
  unfold loop_body, push_line, assign_thread, start_transaction.
  fold (isStart line) (isThread line) (threadId line).
  destruct (isStart line), (isThread line); reflexivity.
Qed.

Lemma loop_body_heap (line : string) (st : parser_state) :
  heap (loop_body line st) =
  if isStart line
  then heap st ++
       [ {| activeTime := parseInt (slice (indexOf active_marker line + 8) line);
            info := [line] |} ]
  else alter (push_info line) (current st) (heap st).
Proof.
  unfold loop_body, push_line, assign_thread, start_transaction.
  fold (isStart line) (isThread line).
  destruct (isStart line), (isThread line); simpl; try reflexivity.
  all: rewrite alter_app_r_alt by lia; by rewrite Nat.sub_diag.
Qed.

Lemma loop_body_wf (line : string) (st : parser_state) :
  wf_state st → wf_state (loop_body line st).
Proof.
  unfold wf_state. intros Hwf.
  rewrite loop_body_current, loop_body_heap.
  destruct (isStart line).
  - rewrite length_app. simpl. lia.
  - by rewrite length_alter.
Qed.

Lemma loop_body_info (line : string) (st : parser_state) (r : nat) :
  wf_state st →
  info_at (heap (loop_body line st)) r =
  info_at (heap st) r ++
  (if decide (current (loop_body line st) = r) then [line] else []).
Proof.
  unfold wf_state, info_at. intros Hwf.
  rewrite loop_body_current, loop_body_heap.
  destruct (isStart line).
  - case_decide as Hr.
    + subst r. rewrite lookup_app_r by lia. rewrite Nat.sub_diag. simpl.
      rewrite (lookup_ge_None_2 (heap st)) by lia. reflexivity.
    + rewrite app_nil_r.
      destruct (decide (r < length (heap st))%nat).
      * by rewrite lookup_app_l.
      * rewrite !lookup_ge_None_2; [reflexivity | lia |].
        rewrite length_app. simpl. lia.
  - case_decide as Hr.
    + subst r. rewrite list_lookup_alter_eq.
      destruct (heap st !! current st) as [t|] eqn:Ht; [reflexivity |].
      apply lookup_ge_None in Ht. lia.
    + rewrite list_lookup_alter_ne by assumption. by rewrite app_nil_r.
Qed.

(** ** The whole loop *)

Lemma run_cons (line : string) (ls : list string) (st : parser_state) :
  run (line :: ls) st = run ls (loop_body line st).
Proof. reflexivity. Qed.

Lemma run_app (ls1 ls2 : list string) (st : parser_state) :
  run (ls1 ++ ls2) st = run ls2 (run ls1 st).
Proof. unfold run. apply foldl_app. Qed.

Lemma run_wf (ls : list string) (st : parser_state) :
  wf_state st → wf_state (run ls st).
Proof.
  revert st. induction ls as [|l ls IH]; intros st Hwf; [assumption |].
  rewrite run_cons. apply IH. by apply loop_body_wf.
Qed.

Lemma loop_body_current_wf (line : string) (st : parser_state) :
  wf_state st →
  current (loop_body line st) = if isStart line then S (current st) else current st.
Proof. unfold wf_state. intros Hwf. rewrite loop_body_current. by rewrite Hwf. Qed.

(** Every object holds the lines of its block. *)
Lemma run_info (ls : list string) (st : parser_state) (r : nat) :
  wf_state st →
  info_at (heap (run ls st)) r = info_at (heap st) r ++ block_from (current st) r ls.
Proof.
  revert st. induction ls as [|l ls IH]; intros st Hwf.
  - simpl. by rewrite app_nil_r.
  - rewrite run_cons, IH by (by apply loop_body_wf).
    rewrite loop_body_info by assumption.
    rewrite loop_body_current_wf by assumption.
    cbn [block_from].
    rewrite <- app_assoc. f_equal.
    case_decide; reflexivity.
Qed.

(** Every entry was written by an id line of the block it refers to. *)
Lemma run_entries (ls : list string) (st : parser_state) (k : number) (r : nat) :
  wf_state st →
  transactions (run ls st) !! k = Some r →
  transactions st !! k = Some r
  ∨ ∃ l, l ∈ block_from (current st) r ls ∧ isThread l = true ∧ threadId l = k.
Proof.
  revert st. induction ls as [|l ls IH]; intros st Hwf Hk; cbn [block_from].
  - by left.
  - rewrite run_cons in Hk.
    apply IH in Hk; [| by apply loop_body_wf].
    rewrite loop_body_current_wf in Hk by assumption.
    destruct Hk as [Hk | (l' & Hin & Hl')].
    + rewrite loop_body_transactions in Hk.
      rewrite loop_body_current_wf in Hk by assumption.
      destruct (isThread l) eqn:Hth; [| by left].
      rewrite lookup_insert in Hk. case_decide as Hkey.
      * right. exists l. injection Hk as Hr.
        rewrite decide_True by assumption.
        split; [apply list_elem_of_here | by split].
      * by left.
    + right. exists l'. split; [| assumption].
      case_decide; [by apply list_elem_of_further | assumption].
Qed.

Lemma block_from_gt (n r : nat) (ls : list string) :
  (r < n)%nat → block_from n r ls = [].
Proof.
  revert n. induction ls as [|l ls IH]; intros n Hr; [reflexivity |].
  cbn [block_from]. destruct (isStart l).
  - rewrite decide_False by lia. apply IH. lia.
  - rewrite decide_False by lia. by apply IH.
Qed.

Lemma block_from_no_start (n : nat) (ls : list string) :
  Forall (λ l, isStart l = false) ls → block_from n n ls = ls.
Proof.
  induction 1 as [|l ls Hl _ IH]; [reflexivity |].
  cbn [block_from]. rewrite Hl, decide_True by reflexivity. by rewrite IH.
Qed.

(** Once the next block has started the block before it is closed. *)
Lemma block_from_closed (n : nat) (ls : list string) :
  (ls = [] ∨ ∃ s ls', ls = s :: ls' ∧ isStart s = true) →
  block_from n n ls = [].
Proof.
  intros [-> | (s & ls' & -> & Hs)]; [reflexivity |].
  cbn [block_from]. rewrite Hs, decide_False by lia.
  apply block_from_gt. lia.
Qed.

Lemma run_no_start_current (ls : list string) (st : parser_state) :
  Forall (λ l, isStart l = false) ls → current (run ls st) = current st.
Proof.
  intros Hall. revert st. induction Hall as [|l ls Hl _ IH]; intros st; [reflexivity |].
  rewrite run_cons, IH, loop_body_current. by rewrite Hl.
Qed.

(** Further id lines of the same block leave an entry on the same object. *)
Lemma run_same_block_entry (ls : list string) (st : parser_state) (k : number) :
  Forall (λ l, isStart l = false) ls →
  transactions st !! k = Some (current st) →
  transactions (run ls st) !! k = Some (current st).
Proof.
  intros Hall. revert st. induction Hall as [|l ls Hl _ IH]; intros st Hk; [assumption |].
  assert (Hc : current (loop_body l st) = current st)
    by (rewrite loop_body_current; by rewrite Hl).
  rewrite run_cons, <- Hc. apply IH.
  rewrite loop_body_transactions, Hc.
  destruct (isThread l); [| assumption].
  rewrite lookup_insert. by case_decide.
Qed.

(** Lines that are no id line for [k] leave the entry of [k] alone. *)
Lemma run_keep_entry (ls : list string) (st : parser_state) (k : number) :
  Forall (λ l, isThread l = true → threadId l ≠ k) ls →
  transactions (run ls st) !! k = transactions st !! k.
Proof.
  intros Hall. revert st. induction Hall as [|l ls Hl _ IH]; intros st; [reflexivity |].
  rewrite run_cons, IH, loop_body_transactions.
  destruct (isThread l); [| reflexivity].
  apply lookup_insert_ne. by apply Hl.
Qed.

Lemma run_lookup_is_Some (ls : list string) (st : parser_state) (r : nat) :
  is_Some (heap st !! r) → is_Some (heap (run ls st) !! r).
Proof.
  revert st. induction ls as [|l ls IH]; intros st Hr; [assumption |].
  rewrite run_cons. apply IH. rewrite loop_body_heap.
  apply lookup_lt_is_Some. apply lookup_lt_is_Some in Hr.
  destruct (isStart l).
  - rewrite length_app. lia.
  - by rewrite length_alter.
Qed.

Lemma info_at_Some (h : list TransactionInfo) (r : nat) (t : TransactionInfo) :
  h !! r = Some t → info_at h r = info t.
Proof. unfold info_at. by intros ->. Qed.

Lemma info_at_nonempty (h : list TransactionInfo) (r : nat) (l : string) :
  l ∈ info_at h r → ∃ t, h !! r = Some t ∧ info_at h r = info t.
Proof.
  unfold info_at. destruct (h !! r) as [t|]; simpl.
  - intros _. by exists t.
  - intros Hin. by apply elem_of_nil in Hin.
Qed.

Lemma initial_state_wf : wf_state initial_state.
Proof. reflexivity. Qed.

Lemma info_at_initial (r : nat) : info_at (heap initial_state) r = [].
Proof. destruct r as [|[|r]]; reflexivity. Qed.

(** A text either has a line with the section marker or has none. *)
Lemma marker_cases (innoDbStatus : string) :
  Forall (λ line, includes section_marker line = false) (split newline innoDbStatus)
  ∨ ∃ line, line ∈ split newline innoDbStatus ∧ includes section_marker line = true.
Proof.
  destruct (decide (Forall (λ line, includes section_marker line = false)
                      (split newline innoDbStatus))) as [H | H]; [by left | right].
  apply not_Forall_Exists in H; [| apply _].
  apply Exists_exists in H as (line & Hin & Hline).
  exists line. split; [assumption |].
  unfold compose in Hline.
  destruct (includes section_marker line); [reflexivity | by destruct Hline].
Qed.

(** What the parser returns, when it returns. *)
Lemma parseInnoDbStatus_Return (innoDbStatus : string) (d : TransactionInfoDict) :
  parseInnoDbStatus innoDbStatus = Return d →
  objects d = heap (run (read_lines innoDbStatus) initial_state)
  ∧ entries d = transactions (run (read_lines innoDbStatus) initial_state).
Proof.
  intros Hd. unfold parseInnoDbStatus in Hd.
  destruct (marker_cases innoDbStatus) as [Hno | (line & Hin & Hline)].
  - rewrite (parse_state_no_marker _ Hno) in Hd. discriminate.
  - rewrite (parse_state_marker _ _ Hin Hline) in Hd. simpl in Hd.
    injection Hd as <-. by split.
Qed.

(** An entry of the result refers to the object of a block, and that block
    has an id line with the entry's key. *)
Lemma entry_block (innoDbStatus : string) (d : TransactionInfoDict) (k : number) (r : nat) :
  parseInnoDbStatus innoDbStatus = Return d →
  entries d !! k = Some r →
  ∃ t l, objects d !! r = Some t
         ∧ info t = block r (read_lines innoDbStatus)
         ∧ l ∈ info t ∧ isThread l = true ∧ threadId l = k.
Proof.
  intros Hd Hk.
  apply parseInnoDbStatus_Return in Hd as [Hobj Hent].
  rewrite Hent in Hk.
  apply run_entries in Hk as [Hk | (l & Hin & Hth & Hkey)]; [| | apply initial_state_wf].
  { simpl in Hk. by rewrite lookup_empty in Hk. }
  pose proof (run_info (read_lines innoDbStatus) initial_state r initial_state_wf) as Hinfo.
  rewrite info_at_initial, app_nil_l in Hinfo.
  change (block_from (current initial_state) r (read_lines innoDbStatus))
    with (block r (read_lines innoDbStatus)) in Hinfo, Hin.
  rewrite <- Hinfo in Hin.
  destruct (info_at_nonempty _ _ _ Hin) as (t & Ht & Hit).
  exists t, l. rewrite Hobj. split; [assumption |].
  split; [congruence |]. split; [congruence | by split].
Qed.

(** ** Prefixes *)

Lemma startsWith_cons (c c' : ascii) (p s : string) :
  startsWith (String c p) (String c' s) = true → c = c' ∧ startsWith p s = true.
Proof.
  unfold startsWith. simpl.
  destruct (ascii_dec c c') as [-> | Hne]; [by split | discriminate].
Qed.

Ltac peel H line :=
  destruct line as [|? line]; [discriminate H |];
  apply startsWith_cons in H as [<- H].

(** A transaction-start line without [", ACTIVE"] gets NaN as its active
    time: the search answers -1, the slice starts at position 7 of the
    line, inside the start marker, and no number is read there. *)
Lemma start_without_active (line : string) :
  isStart line = true →
  indexOf active_marker line = (-1)%Z →
  parseInt (slice (indexOf active_marker line + 8) line) = NaN.
Proof.
  intros Hs Hidx. rewrite Hidx.
  unfold isStart, transaction_marker in Hs.
  do 8 peel Hs line.
  unfold slice.
  change (-1 + 8)%Z with 7%Z. change (7 <? 0)%Z with false. cbv iota.
  rewrite Z.min_l by (simpl String.length; lia).
  reflexivity.
Qed.

(** The three markers exclude one another. *)
Lemma thread_not_start (line : string) : isThread line = true → isStart line = false.
Proof.
  unfold isThread, thread_marker. intros H. peel H line. reflexivity.
Qed.

Lemma thread_not_terminator (line : string) :
  isThread line = true → isTerminator line = false.
Proof.
  unfold isThread, thread_marker. intros H. peel H line. reflexivity.
Qed.

Lemma start_not_terminator (line : string) :
  isStart line = true → isTerminator line = false.
Proof.
  unfold isStart, transaction_marker. intros H. do 4 peel H line. reflexivity.
Qed.

(** ** The sort *)

Section Sort.
Context {A : Type} (cmp : A → A → number).

Lemma sort_insert_perm (x : A) (l : list A) :
  Permutation (sort_insert cmp x l) (x :: l).
Proof.
  induction l as [|y l IH]; simpl; [reflexivity |].
  destruct (number_pos (cmp x y)); [| reflexivity].
  rewrite IH. apply perm_swap.
Qed.

Lemma sort_perm (l : list A) : Permutation (sort cmp l) l.
Proof.
  induction l as [|x l IH]; simpl; [reflexivity |].
  rewrite sort_insert_perm. by constructor.
Qed.

Lemma sort_length (l : list A) : length (sort cmp l) = length l.
Proof. apply Permutation_length, sort_perm. Qed.

(** Elements that the comparator never orders strictly one behind the
    other keep their order. *)
Context (P : A → Prop) `{!∀ x, Decision (P x)}.
Hypothesis P_ties : ∀ a b, P a → P b → number_pos (cmp a b) = false.

Lemma filter_sort_insert (x : A) (l : list A) :
  filter P (sort_insert cmp x l) = filter P (x :: l).
Proof.
  induction l as [|y l IH]; simpl; [reflexivity |].
  destruct (number_pos (cmp x y)) eqn:Hxy; [| reflexivity].
  rewrite (filter_cons _ y), IH, !filter_cons.
  destruct (decide (P x)) as [Hx|Hx], (decide (P y)) as [Hy|Hy]; try reflexivity.
  rewrite (P_ties x y Hx Hy) in Hxy. discriminate.
Qed.

Lemma filter_sort (l : list A) : filter P (sort cmp l) = filter P l.
Proof.
  induction l as [|x l IH]; simpl; [reflexivity |].
  rewrite filter_sort_insert, !filter_cons, IH. reflexivity.
Qed.
End Sort.

(** The sorted list is in order: no element is followed by one it should
    come behind.  This needs only that the comparator never answers
    "behind" both ways round. *)
Section Sorted.
Context {A : Type} (cmp : A → A → number).
Hypothesis cmp_antisym :
  ∀ a b, number_pos (cmp a b) = true → number_pos (cmp b a) = false.

Lemma sort_insert_HdRel (x y : A) (l : list A) :
  number_pos (cmp x y) = true → HdRel (in_order cmp) y l →
  HdRel (in_order cmp) y (sort_insert cmp x l).
Proof.
  intros Hxy Hhd. destruct l as [|z l]; simpl.
  - constructor. by apply cmp_antisym.
  - destruct (number_pos (cmp x z)).
    + constructor. by inversion Hhd.
    + constructor. by apply cmp_antisym.
Qed.

Lemma sort_insert_Sorted (x : A) (l : list A) :
  Sorted (in_order cmp) l → Sorted (in_order cmp) (sort_insert cmp x l).
Proof.
  induction 1 as [|y l Hl IH Hhd]; simpl.
  - repeat constructor.
  - destruct (number_pos (cmp x y)) eqn:Hxy.
    + constructor; [exact IH | by apply sort_insert_HdRel].
    + constructor; [by constructor | by constructor].
Qed.

Lemma sort_Sorted (l : list A) : Sorted (in_order cmp) (sort cmp l).
Proof.
  induction l as [|x l IH]; simpl; [constructor | by apply sort_insert_Sorted].
Qed.
End Sorted.

Lemma round_double_pos (z : Z) :
  number_pos (round_double z) = true → (0 < z)%Z.
Proof.
  unfold round_double.
  destruct (Z.leb_spec (Z.log2 (Z.abs z)) 52) as [Hle | Hgt]; simpl.
  - intros H. by apply Z.ltb_lt in H.
  - assert (Hz : z ≠ 0%Z) by (intros ->; simpl in Hgt; lia).
    match goal with |- context [Z.shiftl ?q ?sh] =>
      match q with
      | 1%Z => fail 1
      | _ => set (v := Z.shiftl q sh); assert (Hv : (0 <= v)%Z)
      end
    end.
    { apply Z.shiftl_nonneg.
      assert (0 <= Z.shiftr (Z.abs z) (Z.log2 (Z.abs z) - 52))%Z
        by (apply Z.shiftr_nonneg; lia).
      repeat match goal with |- context [if ?b then _ else _] => destruct b end; lia. }
    destruct (Z.shiftl 1 1024 <=? v)%Z; simpl.
    + destruct (Z.ltb_spec z 0); [discriminate | lia].
    + intros H. apply Z.ltb_lt in H.
      destruct (Z.sgn_spec z) as [[? Hs] | [[? Hs] | [? Hs]]]; rewrite Hs in H; lia.
Qed.

Lemma number_sub_antisym (x y : number) :
  number_pos (number_sub x y) = true → number_pos (number_sub y x) = false.
Proof.
  destruct x as [|s|a], y as [|t|b]; simpl; try discriminate; try reflexivity.
  - destruct s, t; simpl; try discriminate; reflexivity.
  - by destruct s.
  - by destruct t.
  - intros H. apply round_double_pos in H.
    destruct (number_pos (round_double (b - a))) eqn:H'; [| reflexivity].
    apply round_double_pos in H'. lia.
Qed.

Lemma compareProcesses_antisym (a b : ProcessWithTransaction) :
  number_pos (compareProcesses a b) = true → number_pos (compareProcesses b a) = false.
Proof.
  unfold compareProcesses.
  destruct (transaction a) as [ta|], (transaction b) as [tb|]; simpl;
    try discriminate; try reflexivity; apply number_sub_antisym.
Qed.

(** The sorted process list is in the comparator's order. *)
Lemma sort_processes_Sorted (l : list ProcessWithTransaction) :
  Sorted (in_order compareProcesses) (sort compareProcesses l).
Proof. apply sort_Sorted, compareProcesses_antisym. Qed.

Lemma number_sub_diag (x : number) : number_pos (number_sub x x) = false.
Proof.
  destruct x as [|s|z]; simpl; [reflexivity | |].
  - by rewrite Bool.eqb_reflx.
  - by rewrite Z.sub_diag.
Qed.

(** The comparator is not positive on two processes with equal keys. *)
Lemma compareProcesses_tie (a b : ProcessWithTransaction) :
  sort_key a = sort_key b → number_pos (compareProcesses a b) = false.
Proof.
  unfold sort_key, compareProcesses.
  destruct (transaction a) as [ta|], (transaction b) as [tb|]; intros Hk;
    try discriminate; injection Hk as ->; apply number_sub_diag.
Qed.



(** ** The lines after an id line *)

(** The state after an id line and the rest of its block: the object the id
    line stored under its key now ends with the id line and the lines after
    it, and it still is the entry of the key unless a later id line took the
    key. *)
Lemma run_thread_block (idl : string) (conts rest : list string) (st : parser_state) :
  wf_state st →
  isThread idl = true →
  Forall (λ l, isStart l = false) conts →
  (rest = [] ∨ ∃ s rest', rest = s :: rest' ∧ isStart s = true) →
  let r := current (loop_body idl st) in
  let st' := run (idl :: conts ++ rest) st in
  transactions (loop_body idl st) !! threadId idl = Some r
  ∧ is_Some (heap st' !! r)
  ∧ info_at (heap st') r = info_at (heap st) r ++ idl :: conts
  ∧ (Forall (λ l, isThread l = true → threadId l ≠ threadId idl) rest →
     transactions st' !! threadId idl = Some r).
Proof.
  intros Hwf Hid Hconts Hrest r st'. subst st'.
  rewrite run_cons, run_app.
  set (st1 := loop_body idl st) in *.
  assert (Hwf1 : wf_state st1) by (by apply loop_body_wf).
  assert (Hcur : current (run conts st1) = r) by (by apply run_no_start_current).
  assert (Hentry : transactions st1 !! threadId idl = Some r).
  { unfold st1. rewrite loop_body_transactions, Hid. apply lookup_insert_eq. }
  split; [exact Hentry | split; [| split]].
  - do 2 apply run_lookup_is_Some.
    apply lookup_lt_is_Some. unfold wf_state in Hwf1. subst r. lia.
  - rewrite run_info by (by apply run_wf).
    rewrite Hcur, block_from_closed, app_nil_r by assumption.
    rewrite run_info by assumption.
    fold r. rewrite block_from_no_start by assumption.
    unfold st1 at 1. rewrite loop_body_info by assumption.
    fold st1. fold r. rewrite decide_True by reflexivity.
    rewrite <- app_assoc. reflexivity.
  - intros Hkeys. rewrite run_keep_entry by assumption.
    by apply run_same_block_entry.
Qed.

(** The view of the mapping by value loses no entry: every reference the
    parser stores points to an object. *)
Lemma dict_get_parsed (innoDbStatus : string) (d : TransactionInfoDict) (k : number) :
  parseInnoDbStatus innoDbStatus = Return d →
  is_Some (entries d !! k) ↔ is_Some (dict_get d k).
Proof.
  intros Hd. unfold dict_get. split.
  - intros [r Hr]. rewrite Hr. simpl.
    destruct (entry_block _ _ _ _ Hd Hr) as (t & _ & Ht & _). by exists t.
  - destruct (entries d !! k) as [r|]; [by eexists | intros [t Ht]; discriminate].
Qed.

(** ** The join *)

Lemma process_of_withTransaction (innoDbStatus : TransactionInfoDict) (process : Process) :
  process_of (withTransaction innoDbStatus process) = process.
Proof. by destruct process. Qed.

Lemma process_of_join (innoDbStatus : TransactionInfoDict) (processList : list Process) :
  map process_of (processListWithTransaction innoDbStatus processList) = processList.
Proof.
  unfold processListWithTransaction.
  induction processList as [|p l IH]; simpl; [reflexivity |].
  by rewrite process_of_withTransaction, IH.
Qed.

(** ** The scenarios of the specification *)

Example scenario_B :
  parseInnoDbStatus scenarioB =
  Return {| objects := [ {| activeTime := Num (-1); info := [marker_line] |};
                         {| activeTime := Num 5; info := [start_line] |} ];
            entries := ∅ |}.
Proof. vm_compute. reflexivity. Qed.

Example scenario_C :
  completion_map (map (λ p, (pId p, activeTime <$> transaction p)))
    (getServerSideProps [sample_process 1 0; sample_process 7 0] scenarioA) =
  Return [(Num 7, Some (Num 5)); (Num 1, None)].
Proof. vm_compute. reflexivity. Qed.

Example scenario_D :
  completion_map (map pTime)
    (getServerSideProps [sample_process 1 10; sample_process 2 20] scenarioA) =
  Return [Num 20; Num 10].
Proof. vm_compute. reflexivity. Qed.

Example scenario_E :
  completion_map (map (λ p, (pId p, activeTime <$> transaction p)))
    (getServerSideProps [sample_process 7 0; sample_process 8 0] report_two_threads) =
  Return [(Num 7, Some (Num 5)); (Num 8, Some (Num 5))].
Proof. vm_compute. reflexivity. Qed.

(** * The claims *)

(** C1. The specification asks that a text without any line containing the
    section marker be parsed to an empty mapping without failure.  The code
    does not test the -1 that [findIndex] answers: the loop starts at index
    -1, the line read there is [undefined] and [line.startsWith] throws.
    On a report without the section the parser throws a TypeError. *)
Theorem C1_report_without_section_throws :
  Forall (λ line, includes section_marker line = false)
    (split newline report_without_section)
  ∧ parseInnoDbStatus report_without_section = Throw TypeError.
Proof.
  split.
  - repeat constructor.
  - apply parseInnoDbStatus_no_marker. repeat constructor.
Qed.

(** C2. The specification asks that a transaction-start line without an
    [", ACTIVE <integer> sec"] part be recorded with the active time -1.
    The code does not test the -1 that [indexOf] answers and parses the
    text from position 7 of the line: the block of the idle transaction
    of session 7 is recorded with the active time NaN, without a throw. *)
Theorem C2_not_started_active_time_is_NaN :
  isStart not_started_line = true
  ∧ indexOf active_marker not_started_line = (-1)%Z
  ∧ ∃ d, parseInnoDbStatus report_not_started = Return d
         ∧ dict_get d (Num 7) =
           Some {| activeTime := NaN; info := [not_started_line; thread_line] |}.
Proof.
  split; [reflexivity | split; [reflexivity |]].
  eexists. split; vm_compute; reflexivity.
Qed.

(** C3, as stated, fails: with two id lines in one block two distinct keys
    of the mapping refer to the same TransactionDetail. *)
Lemma C3_two_keys_one_detail :
  ¬ (∀ d k1 k2 r,
       parseInnoDbStatus report_two_threads = Return d →
       entries d !! k1 = Some r → entries d !! k2 = Some r → k1 = k2).
Proof.
  intros H.
  assert (Hd : ∃ d, parseInnoDbStatus report_two_threads = Return d
                    ∧ entries d !! Num 7 = Some 1%nat ∧ entries d !! Num 8 = Some 1%nat).
  { eexists. split; [vm_compute; reflexivity | split; vm_compute; reflexivity]. }
  destruct Hd as (d & Hd & H7 & H8).
  specialize (H d (Num 7) (Num 8) 1%nat Hd H7 H8). discriminate.
Qed.

(** C3, amended. In every mapping the parser returns, each entry refers to
    the TransactionDetail of one block of the report (its detail lines are
    the lines of that block), and that block contains an id line carrying
    the entry's key; so a block in which no id line appears is absent from
    the mapping, and two keys refer to the same TransactionDetail only when
    their id lines stand in the same block. *)
Theorem C3_entry_refers_to_block_with_id_line
    (innoDbStatus : string) (d : TransactionInfoDict) (k : number) (r : nat) :
  parseInnoDbStatus innoDbStatus = Return d →
  entries d !! k = Some r →
  ∃ t l, objects d !! r = Some t
         ∧ info t = block r (read_lines innoDbStatus)
         ∧ l ∈ info t ∧ isThread l = true ∧ threadId l = k.
Proof. apply entry_block. Qed.

Lemma C3_entry_refers_to_block_with_id_line_witness :
  parseInnoDbStatus report_two_threads = Return dict_two_threads
  ∧ entries dict_two_threads !! Num 8 = Some 1%nat
  ∧ ∃ t l, objects dict_two_threads !! 1%nat = Some t
           ∧ info t = block 1 (read_lines report_two_threads)
           ∧ l ∈ info t ∧ isThread l = true ∧ threadId l = Num 8.
Proof.
  assert (H1 : parseInnoDbStatus report_two_threads = Return dict_two_threads)
    by (vm_compute; reflexivity).
  assert (H2 : entries dict_two_threads !! Num 8 = Some 1%nat)
    by (vm_compute; reflexivity).
  split; [exact H1 | split; [exact H2 |]].
  exact (C3_entry_refers_to_block_with_id_line
           report_two_threads dict_two_threads (Num 8) 1%nat H1 H2).
Defined.






(** The sort is stable on finite keys: the processes with one key (the
    active time for processes with a transaction, the time of the process
    for those without) appear in the sorted list in the order of the
    input. *)
Lemma sort_stable_finite (l : list ProcessWithTransaction) (k : number + number) :
  Forall finite_key l →
  filter (λ p, sort_key p = k) (sort compareProcesses l) =
  filter (λ p, sort_key p = k) l.
Proof.
  intros _. apply filter_sort.
  intros a b Ha Hb. apply compareProcesses_tie. congruence.
Qed.

(** C5. The specification asks for a stable order on every list.  The
    comparator subtracts the active times and does not expect NaN, which
    the parser stores for a transaction that is not started.  On the report
    of seven transactions (0, 1, NaN, 0, NaN, 1, 1) the rows handed to the
    sort have these active times, and the comparator is not consistent on
    them: it answers NaN, which the sort reads as a tie, on the rows 6 and 3
    and on the rows 3 and 4, and orders the rows 6 and 4 strictly.  For such
    a comparator the language leaves the order to the engine and promises
    no stability. *)
Theorem C5_comparator_inconsistent_on_NaN :
  ∃ d rows r3 r4 r6,
    parseInnoDbStatus report_mixed = Return d
    ∧ rows = processListWithTransaction d processes_mixed
    ∧ map (λ p, (pId p, activeTime <$> transaction p)) rows =
      [ (Num 1, Some (Num 0)); (Num 2, Some (Num 1)); (Num 3, Some NaN);
        (Num 4, Some (Num 0)); (Num 5, Some NaN); (Num 6, Some (Num 1));
        (Num 7, Some (Num 1)) ]
    ∧ rows !! 2%nat = Some r3 ∧ rows !! 3%nat = Some r4 ∧ rows !! 5%nat = Some r6
    ∧ compareProcesses r6 r3 = NaN
    ∧ compareProcesses r3 r4 = NaN
    ∧ compareProcesses r6 r4 = Num (-1).
Proof.
  do 5 eexists.
  split; [vm_compute; reflexivity |].
  split; [reflexivity |].
  split; [vm_compute; reflexivity |].
  split; [vm_compute; reflexivity |].
  split; [vm_compute; reflexivity |].
  split; [vm_compute; reflexivity |].
  split; [vm_compute; reflexivity |].
  split; vm_compute; reflexivity.
Qed.

(** C6. For every process list and every mapping, the join returns a list
    of the same length and in the same order, one joined process per
    process: its nine fields are those of the process and its transaction
    is the entry of the mapping under the process id, or nothing when the
    mapping has none.  The join is a total function of its two inputs. *)
Theorem C6_join_one_to_one (innoDbStatus : TransactionInfoDict) (processList : list Process) :
  length (processListWithTransaction innoDbStatus processList) = length processList
  ∧ map process_of (processListWithTransaction innoDbStatus processList) = processList
  ∧ map transaction (processListWithTransaction innoDbStatus processList) =
    map (λ process, dict_get innoDbStatus (Id process)) processList.
Proof.
  unfold processListWithTransaction.
  split; [apply length_map | split; [apply process_of_join |]].
  induction processList as [|p l IH]; simpl; [reflexivity |]. by rewrite IH.
Qed.

(** C7, as stated, fails: the entry of key 7 does not have three detail
    lines. *)
Lemma C7_not_three_lines :
  ¬ (∃ d t l1 l2 l3,
       parseInnoDbStatus scenarioA = Return d
       ∧ dict_get d (Num 7) = Some t ∧ info t = [l1; l2; l3]).
Proof.
  intros (d & t & l1 & l2 & l3 & Hd & Ht & Hinfo).
  vm_compute in Hd. injection Hd as <-.
  vm_compute in Ht. injection Ht as <-.
  discriminate Hinfo.
Qed.

(** C7, amended. On the text of scenario A the parser returns the mapping
    with the single key 7, whose active time is 5 and whose detail lines
    are the two lines between the marker line and the terminator: the
    transaction-start line and the id line.  (The marker line went to the
    accumulator that the transaction-start line replaced.) *)
Theorem C7_scenario_A :
  ∃ d, parseInnoDbStatus scenarioA = Return d
       ∧ dom (entries d) = {[ Num 7 ]}
       ∧ dict_get d (Num 7) =
         Some {| activeTime := Num 5; info := [start_line; thread_line] |}.
Proof.
  eexists. split; [vm_compute; reflexivity |].
  split; vm_compute; reflexivity.
Qed.

(** C8. On every text with a section-marker line the parser returns a
    mapping (no error), and a block in which no id line appears contributes
    no entry: no key refers to its TransactionDetail.  In particular, when
    no line read is an id line, as in scenario B, the mapping is empty. *)
Theorem C8_block_without_id_line_dropped (innoDbStatus line : string) :
  line ∈ split newline innoDbStatus →
  includes section_marker line = true →
  ∃ d, parseInnoDbStatus innoDbStatus = Return d
       ∧ (∀ r, Forall (λ l, isThread l = false) (block r (read_lines innoDbStatus)) →
               ∀ k, entries d !! k ≠ Some r)
       ∧ (Forall (λ l, isThread l = false) (read_lines innoDbStatus) → entries d = ∅).
Proof.
  intros Hin Hline.
  pose (st := run (read_lines innoDbStatus) initial_state).
  assert (Hd : parseInnoDbStatus innoDbStatus =
               Return {| objects := heap st; entries := transactions st |}).
  { unfold parseInnoDbStatus. by rewrite (parse_state_marker _ _ Hin Hline). }
  eexists. split; [exact Hd |].
  assert (Hblock : ∀ k r, transactions st !! k = Some r →
            ∃ l, l ∈ read_lines innoDbStatus ∧ l ∈ block r (read_lines innoDbStatus)
                 ∧ isThread l = true).
  { intros k r Hk.
    destruct (entry_block _ _ k r Hd Hk) as (t & l & Ht & Hinfo & Hl & Hth & _).
    exists l. rewrite <- Hinfo. split; [| by split].
    rewrite Hinfo in Hl. clear -Hl. unfold block in Hl.
    generalize 0%nat as n, Hl. clear Hl.
    induction (read_lines innoDbStatus) as [|x ls IH]; intros n Hl.
    - by apply elem_of_nil in Hl.
    - cbn [block_from] in Hl. case_decide.
      + apply elem_of_cons in Hl as [-> | Hl]; [apply list_elem_of_here |].
        apply list_elem_of_further. by eapply IH.
      + apply list_elem_of_further. by eapply IH. }
  split.
  - intros r Hnone k Hk. simpl in Hk.
    destruct (Hblock k r Hk) as (l & _ & Hl & Hth).
    rewrite Forall_forall in Hnone. specialize (Hnone l Hl). congruence.
  - intros Hnone. simpl. apply map_eq. intros k. rewrite lookup_empty.
    destruct (transactions st !! k) as [r|] eqn:Hk; [| reflexivity].
    destruct (Hblock k r Hk) as (l & Hl & _ & Hth).
    rewrite Forall_forall in Hnone. specialize (Hnone l Hl). congruence.
Qed.

Lemma C8_block_without_id_line_dropped_witness :
  marker_line ∈ split newline scenarioB
  ∧ includes section_marker marker_line = true
  ∧ Forall (λ l, isThread l = false) (read_lines scenarioB)
  ∧ ∃ d, parseInnoDbStatus scenarioB = Return d ∧ entries d = ∅.
Proof.
  assert (H1 : marker_line ∈ split newline scenarioB) by apply list_elem_of_here.
  assert (H2 : includes section_marker marker_line = true) by reflexivity.
  assert (H3 : Forall (λ l, isThread l = false) (read_lines scenarioB))
    by (repeat constructor).
  split; [exact H1 | split; [exact H2 | split; [exact H3 |]]].
  destruct (C8_block_without_id_line_dropped scenarioB marker_line H1 H2)
    as (d & Hd & _ & Hempty).
  exists d. split; [exact Hd | exact (Hempty H3)].
Defined.

(** C9. When the lines read are [pre], an id line, lines [conts] without a
    transaction-start line, and a remainder that is empty or begins with
    the next transaction-start line, then the TransactionDetail that the id
    line stored under its key has, in the result, detail lines that end
    with the id line followed by all of [conts], in file order (they are
    the lines of its block); and it is the entry of that key in the mapping
    returned, so that the lines after the id line are seen through the
    entry, unless a later block has an id line with the same key. *)
Theorem C9_lines_after_id_line (innoDbStatus line idl : string)
    (pre conts rest : list string) :
  line ∈ split newline innoDbStatus →
  includes section_marker line = true →
  read_lines innoDbStatus = pre ++ idl :: conts ++ rest →
  isThread idl = true →
  Forall (λ l, isStart l = false) conts →
  (rest = [] ∨ ∃ s rest', rest = s :: rest' ∧ isStart s = true) →
  ∃ d r t before,
    parseInnoDbStatus innoDbStatus = Return d
    ∧ transactions (run (pre ++ [idl]) initial_state) !! threadId idl = Some r
    ∧ objects d !! r = Some t
    ∧ info t = block r (read_lines innoDbStatus)
    ∧ info t = before ++ idl :: conts
    ∧ (Forall (λ l, isThread l = true → threadId l ≠ threadId idl) rest →
       entries d !! threadId idl = Some r ∧ dict_get d (threadId idl) = Some t).
Proof.
  intros Hin Hline Hlines Hid Hconts Hrest.
  pose (st0 := run pre initial_state).
  assert (Hwf0 : wf_state st0) by apply run_wf, initial_state_wf.
  destruct (run_thread_block idl conts rest st0 Hwf0 Hid Hconts Hrest)
    as (Hstored & [t Ht] & Hinfo & Hentry).
  assert (Hrun : run (read_lines innoDbStatus) initial_state =
                 run (idl :: conts ++ rest) st0)
    by (rewrite Hlines; apply run_app).
  rewrite <- Hrun in Hentry, Ht, Hinfo.
  set (r := current (loop_body idl st0)) in *.
  exists {| objects := heap (run (read_lines innoDbStatus) initial_state);
            entries := transactions (run (read_lines innoDbStatus) initial_state) |},
    r, t, (info_at (heap st0) r).
  split; [| split; [| split; [| split; [| split]]]].
  - unfold parseInnoDbStatus. by rewrite (parse_state_marker _ _ Hin Hline).
  - rewrite run_app. exact Hstored.
  - exact Ht.
  - rewrite <- (info_at_Some _ _ _ Ht).
    rewrite run_info by apply initial_state_wf.
    by rewrite info_at_initial.
  - rewrite <- (info_at_Some _ _ _ Ht). exact Hinfo.
  - intros Hkeys. specialize (Hentry Hkeys). split; [exact Hentry |].
    unfold dict_get. simpl. rewrite Hentry. exact Ht.
Qed.

Lemma C9_lines_after_id_line_witness :
  read_lines report_with_query =
    [marker_line; start_line] ++ thread_line :: ["UPDATE t SET a = 1"] ++ []
  ∧ ∃ d t before,
      parseInnoDbStatus report_with_query = Return d
      ∧ dict_get d (Num 7) = Some t
      ∧ info t = before ++ [thread_line; "UPDATE t SET a = 1"].
Proof.
  assert (Hlines : read_lines report_with_query =
            [marker_line; start_line] ++ thread_line :: ["UPDATE t SET a = 1"] ++ [])
    by reflexivity.
  split; [exact Hlines |].
  destruct (C9_lines_after_id_line report_with_query marker_line thread_line
              [marker_line; start_line] ["UPDATE t SET a = 1"] [])
    as (d & r & t & before & Hd & _ & _ & _ & Hinfo & Hget).
  - apply list_elem_of_here.
  - reflexivity.
  - exact Hlines.
  - reflexivity.
  - repeat constructor.
  - by left.
  - exists d, t, before. split; [exact Hd | split; [| exact Hinfo]].
    apply Hget. constructor.
Defined.

(** C10. For every process list and every mapping, each joined process has
    the nine fields of its process unchanged, and the sort only rearranges
    the joined processes: the processes inside the sorted list are those of
    the input, each as often as there. *)
Theorem C10_fields_preserved (innoDbStatus : TransactionInfoDict) (processList : list Process) :
  Forall2 (λ process p,
      pId p = Id process ∧ pUser p = User process ∧ pHost p = Host process
      ∧ pdb p = db process ∧ pCommand p = Command process ∧ pTime p = Time process
      ∧ pState p = State process ∧ pInfo p = Info process
      ∧ pProgress p = Progress process)
    processList (processListWithTransaction innoDbStatus processList)
  ∧ Permutation
      (map process_of
         (sort compareProcesses (processListWithTransaction innoDbStatus processList)))
      processList.
Proof.
  split.
  - unfold processListWithTransaction.
    induction processList as [|p l IH]; simpl; constructor; [| exact IH].
    repeat split.
  - rewrite (sort_perm compareProcesses).
    by rewrite process_of_join.
Qed.

(** * Further properties of the code *)

(** ** The parser: which block a key refers to *)

Lemma block_from_app (n r : nat) (ls1 ls2 : list string) :
  block_from n r (ls1 ++ ls2) =
  block_from n r ls1 ++
  block_from (n + length (filter (λ l, isStart l = true) ls1)) r ls2.
Proof.
  revert n. induction ls1 as [|l ls1 IH]; intros n.
  - simpl. by rewrite Nat.add_0_r.
  - cbn [block_from app]. rewrite filter_cons.
    destruct (decide (isStart l = true)) as [Hl | Hl].
    + rewrite Hl, IH. cbn [length].
      replace (S n + length (filter (λ l0, isStart l0 = true) ls1))%nat
        with (n + S (length (filter (λ l0, isStart l0 = true) ls1)))%nat by lia.
      by case_decide.
    + apply not_true_is_false in Hl. rewrite Hl, IH. by case_decide.
Qed.

Lemma block_from_subset (n r : nat) (ls : list string) (l : string) :
  l ∈ block_from n r ls → l ∈ ls.
Proof.
  revert n. induction ls as [|x ls IH]; intros n Hl.
  - by apply elem_of_nil in Hl.
  - cbn [block_from] in Hl. case_decide.
    + apply elem_of_cons in Hl as [-> | Hl]; [apply list_elem_of_here |].
      apply list_elem_of_further. by eapply IH.
    + apply list_elem_of_further. by eapply IH.
Qed.

Lemma run_current (ls : list string) (st : parser_state) :
  wf_state st →
  current (run ls st) = (current st + length (filter (λ l, isStart l = true) ls))%nat.
Proof.
  revert st. induction ls as [|l ls IH]; intros st Hwf.
  - simpl. lia.
  - rewrite run_cons, IH by (by apply loop_body_wf).
    rewrite loop_body_current_wf by assumption.
    rewrite filter_cons. destruct (decide (isStart l = true)) as [Hl | Hl].
    + rewrite Hl. simpl. lia.
    + apply not_true_is_false in Hl. by rewrite Hl.
Qed.

Lemma run_entry_mono (ls : list string) (st : parser_state) (k : number) :
  is_Some (transactions st !! k) → is_Some (transactions (run ls st) !! k).
Proof.
  revert st. induction ls as [|l ls IH]; intros st Hk; [assumption |].
  rewrite run_cons. apply IH. rewrite loop_body_transactions.
  destruct (isThread l); [| assumption].
  rewrite lookup_insert. by case_decide.
Qed.

Lemma parseInnoDbStatus_marker (innoDbStatus line : string) :
  line ∈ split newline innoDbStatus → includes section_marker line = true →
  parseInnoDbStatus innoDbStatus =
  Return {| objects := heap (run (read_lines innoDbStatus) initial_state);
            entries := transactions (run (read_lines innoDbStatus) initial_state) |}.
Proof.
  intros Hin Hline. unfold parseInnoDbStatus.
  by rewrite (parse_state_marker _ _ Hin Hline).
Qed.

(** X1. Last write wins: the entry of a key is the block of the last id
    line read that carries the key.  The number of that block is the number
    of transaction-start lines read before the id line. *)
Theorem last_thread_line_wins (innoDbStatus line idl : string) (pre post : list string) :
  line ∈ split newline innoDbStatus →
  includes section_marker line = true →
  read_lines innoDbStatus = pre ++ idl :: post →
  isThread idl = true →
  Forall (λ l, isThread l = true → threadId l ≠ threadId idl) post →
  let r := length (filter (λ l, isStart l = true) pre) in
  ∃ d t,
    parseInnoDbStatus innoDbStatus = Return d
    ∧ entries d !! threadId idl = Some r
    ∧ dict_get d (threadId idl) = Some t
    ∧ info t = block r (read_lines innoDbStatus)
    ∧ idl ∈ info t.
Proof.
  intros Hin Hline Hlines Hid Hpost r.
  pose proof (parseInnoDbStatus_marker _ _ Hin Hline) as Hd.
  set (d := {| objects := heap (run (read_lines innoDbStatus) initial_state);
               entries := transactions (run (read_lines innoDbStatus) initial_state) |})
    in Hd.
  assert (Hentry : entries d !! threadId idl = Some r).
  { unfold d. simpl. rewrite Hlines, run_app, run_cons.
    rewrite run_keep_entry by assumption.
    rewrite loop_body_transactions, Hid, lookup_insert_eq.
    rewrite loop_body_current_wf by apply run_wf, initial_state_wf.
    rewrite (thread_not_start _ Hid).
    rewrite run_current by apply initial_state_wf. reflexivity. }
  destruct (entry_block _ _ _ _ Hd Hentry) as (t & _ & Ht & Hinfo & _).
  exists d, t. split; [exact Hd | split; [exact Hentry |]].
  split; [| split; [exact Hinfo |]].
  - unfold dict_get. by rewrite Hentry.
  - rewrite Hinfo, Hlines. unfold block. rewrite block_from_app.
    apply elem_of_app. right. cbn [block_from]. simpl.
    rewrite (thread_not_start _ Hid). fold r.
    rewrite decide_True by reflexivity. apply list_elem_of_here.
Qed.

Lemma last_thread_line_wins_witness :
  read_lines report_key_twice =
    [marker_line; start_line; thread_line; second_start_line]
    ++ second_thread_line :: ["MariaDB thread id 8, bar"]
  ∧ (thread_line ∈ [marker_line; start_line; thread_line; second_start_line]
     ∧ threadId thread_line = threadId second_thread_line)
  ∧ Forall (λ l, isThread l = true → threadId l ≠ threadId second_thread_line)
      ["MariaDB thread id 8, bar"]
  ∧ ∃ d t, parseInnoDbStatus report_key_twice = Return d
           ∧ entries d !! Num 7 = Some 2%nat
           ∧ dict_get d (Num 7) = Some t
           ∧ info t = block 2 (read_lines report_key_twice)
           ∧ second_thread_line ∈ info t.
Proof.
  assert (Hlines : read_lines report_key_twice =
            [marker_line; start_line; thread_line; second_start_line]
            ++ second_thread_line :: ["MariaDB thread id 8, bar"])
    by reflexivity.
  assert (Hpost : Forall (λ l, isThread l = true → threadId l ≠ threadId second_thread_line)
                    ["MariaDB thread id 8, bar"]).
  { repeat constructor. intros _. vm_compute. discriminate. }
  split; [exact Hlines |].
  split; [split; [set_solver | reflexivity] |].
  split; [exact Hpost |].
  destruct (last_thread_line_wins report_key_twice marker_line second_thread_line
              [marker_line; start_line; thread_line; second_start_line]
              ["MariaDB thread id 8, bar"])
    as (d & t & Hd & Hentry & Hget & Hinfo & Hin).
  - apply list_elem_of_here.
  - reflexivity.
  - exact Hlines.
  - reflexivity.
  - exact Hpost.
  - exists d, t.
    split; [exact Hd | split; [exact Hentry | split; [exact Hget | split]]].
    + exact Hinfo.
    + exact Hin.
Defined.

Lemma entries_keys (innoDbStatus : string) (d : TransactionInfoDict) (k : number) :
  parseInnoDbStatus innoDbStatus = Return d →
  is_Some (entries d !! k) ↔
  ∃ l, l ∈ read_lines innoDbStatus ∧ isThread l = true ∧ threadId l = k.
Proof.
  intros Hd. split.
  - intros [r Hr].
    destruct (entry_block _ _ _ _ Hd Hr) as (t & l & _ & Hinfo & Hl & Hth & Hk).
    exists l. split; [| by split].
    rewrite Hinfo in Hl. by apply block_from_subset in Hl.
  - intros (l & Hl & Hth & <-).
    apply parseInnoDbStatus_Return in Hd as [_ ->].
    apply list_elem_of_split in Hl as (pre & post & ->).
    rewrite run_app, run_cons. apply run_entry_mono.
    rewrite loop_body_transactions, Hth, lookup_insert_eq. by eexists.
Qed.

(** X2. The keys of the mapping are exactly the keys of the id lines read:
    no id line is lost and no key is invented. *)
Theorem keys_are_thread_ids (innoDbStatus : string) (d : TransactionInfoDict) (k : number) :
  parseInnoDbStatus innoDbStatus = Return d →
  is_Some (entries d !! k) ↔
  ∃ l, l ∈ read_lines innoDbStatus ∧ isThread l = true ∧ threadId l = k.
Proof. apply entries_keys. Qed.

Lemma keys_are_thread_ids_witness :
  parseInnoDbStatus report_two_threads = Return dict_two_threads
  ∧ (is_Some (entries dict_two_threads !! Num 7) ↔
     ∃ l, l ∈ read_lines report_two_threads ∧ isThread l = true ∧ threadId l = Num 7).
Proof.
  assert (H : parseInnoDbStatus report_two_threads = Return dict_two_threads)
    by (vm_compute; reflexivity).
  split; [exact H |].
  exact (keys_are_thread_ids report_two_threads dict_two_threads (Num 7) H).
Defined.

(** ** The parser: what an object holds *)

Lemma push_info_ok (line : string) (r : nat) (t : TransactionInfo) :
  isStart line = false → object_ok r t → object_ok r (push_info line t).
Proof.
  intros Hl. destruct r as [|r]; simpl.
  - intros [Ha Hi]. split; [assumption |].
    apply Forall_app. split; [assumption | by repeat constructor].
  - intros (s & rest & Hi & Hs & Ha & Hrest).
    exists s, (rest ++ [line]). rewrite Hi. split; [reflexivity |].
    split; [assumption | split; [assumption |]].
    apply Forall_app. split; [assumption | by repeat constructor].
Qed.

Lemma loop_body_heap_ok (line : string) (st : parser_state) :
  wf_state st → heap_ok st → heap_ok (loop_body line st).
Proof.
  unfold wf_state, heap_ok. intros Hwf Hok r t.
  rewrite loop_body_heap. destruct (isStart line) eqn:Hl.
  - intros Hr. apply lookup_app_Some in Hr as [Hr | [Hlen Hr]]; [by apply Hok |].
    apply list_lookup_singleton_Some in Hr as [Hr <-].
    destruct r as [|r]; [lia |]. simpl.
    exists line, []. by repeat split.
  - intros Hr. rewrite list_lookup_alter in Hr. case_decide as Hc.
    + subst r.
      destruct (heap st !! current st) as [t0|] eqn:Ht0; simpl in Hr; [| discriminate].
      injection Hr as <-. apply push_info_ok; [assumption | by apply Hok].
    + by apply Hok.
Qed.

Lemma run_heap_ok (ls : list string) (st : parser_state) :
  wf_state st → heap_ok st → heap_ok (run ls st).
Proof.
  revert st. induction ls as [|l ls IH]; intros st Hwf Hok; [assumption |].
  rewrite run_cons. apply IH; [by apply loop_body_wf | by apply loop_body_heap_ok].
Qed.

Lemma initial_state_heap_ok : heap_ok initial_state.
Proof.
  intros r t Hr. cbn [heap initial_state] in Hr.
  apply list_lookup_singleton_Some in Hr as [-> <-].
  simpl. split; [reflexivity | constructor].
Qed.

(** X3. In every mapping the parser returns, an entry either refers to the
    accumulator made before the loop, with the active time -1 and no
    transaction-start line among its lines (its id line came before any
    transaction-start line), or to an object whose first line is a
    transaction-start line, whose active time is what [parseInt] reads
    behind the first [", ACTIVE"] of that line, and which has no other
    transaction-start line. *)
Theorem entry_active_time (innoDbStatus : string) (d : TransactionInfoDict)
    (k : number) (t : TransactionInfo) :
  parseInnoDbStatus innoDbStatus = Return d →
  dict_get d k = Some t →
  (activeTime t = Num (-1) ∧ Forall (λ l, isStart l = false) (info t))
  ∨ (∃ s rest,
       info t = s :: rest ∧ isStart s = true
       ∧ activeTime t = parseInt (slice (indexOf active_marker s + 8) s)
       ∧ Forall (λ l, isStart l = false) rest).
Proof.
  intros Hd Hget. unfold dict_get in Hget.
  destruct (entries d !! k) as [r|] eqn:Hr; simpl in Hget; [| discriminate].
  apply parseInnoDbStatus_Return in Hd as [Hobj _].
  rewrite Hobj in Hget.
  pose proof (run_heap_ok (read_lines innoDbStatus) initial_state
                initial_state_wf initial_state_heap_ok r t Hget) as Hok.
  destruct r as [|r]; [by left | by right].
Qed.

Lemma entry_active_time_witness :
  parseInnoDbStatus scenarioA =
    Return {| objects := [ {| activeTime := Num (-1); info := [marker_line] |};
                           {| activeTime := Num 5; info := [start_line; thread_line] |} ];
              entries := {[ Num 7 := 1%nat ]} |}
  ∧ ∃ s rest, [start_line; thread_line] = s :: rest ∧ isStart s = true
              ∧ Num 5 = parseInt (slice (indexOf active_marker s + 8) s).
Proof.
  assert (Hd : parseInnoDbStatus scenarioA =
    Return {| objects := [ {| activeTime := Num (-1); info := [marker_line] |};
                           {| activeTime := Num 5; info := [start_line; thread_line] |} ];
              entries := {[ Num 7 := 1%nat ]} |}) by (vm_compute; reflexivity).
  split; [exact Hd |].
  destruct (entry_active_time scenarioA _ (Num 7)
              {| activeTime := Num 5; info := [start_line; thread_line] |} Hd)
    as [[Hneg _] | (s & rest & Hi & Hs & Ha & _)].
  - vm_compute. reflexivity.
  - discriminate Hneg.
  - exists s, rest. split; [exact Hi | split; [exact Hs | exact Ha]].
Defined.

(** ** The parser: reading the numbers *)

Lemma string_app_cons (c : ascii) (s t : string) :
  String c s +:+ t = String c (s +:+ t).
Proof. reflexivity. Qed.

Lemma string_app_nil (t : string) : "" +:+ t = t.
Proof. reflexivity. Qed.

Lemma string_app_length (s t : string) :
  String.length (s +:+ t) = (String.length s + String.length t)%nat.
Proof.
  induction s as [|c s IH]; [reflexivity |].
  rewrite string_app_cons. simpl. by rewrite IH.
Qed.

Lemma string_drop_app (s t : string) : string_drop (String.length s) (s +:+ t) = t.
Proof. induction s as [|c s IH]; [by destruct t | exact IH]. Qed.

Lemma string_drop_add (n m : nat) (s : string) :
  string_drop (n + m) s = string_drop m (string_drop n s).
Proof.
  revert s. induction n as [|n IH]; intros s; [reflexivity |].
  destruct s as [|c s]; simpl; [by destruct m | apply IH].
Qed.

Lemma digit_value_char (d : nat) :
  (d < 10)%nat → digit_value 10 (digit_char d) = Some (Z.of_nat d).
Proof. intros Hd. do 10 (destruct d as [|d]; [reflexivity |]). lia. Qed.

Lemma read_digits_numeral (ds : list nat) (tail : string) (acc : option Z) :
  Forall (λ d, d < 10)%nat ds →
  read_digits 10 (digits_string ds +:+ tail) acc =
  read_digits 10 tail
    (match ds with
     | [] => acc
     | _ => Some (foldl (λ a d, a * 10 + Z.of_nat d)%Z (default 0%Z acc) ds)
     end).
Proof.
  intros Hds. revert acc. induction Hds as [|d ds Hd _ IH]; intros acc; [reflexivity |].
  cbn [digits_string]. rewrite string_app_cons. cbn [read_digits].
  rewrite (digit_value_char d Hd), IH.
  by destruct ds.
Qed.

Lemma read_digits_stop (tail : string) (acc : option Z) :
  ends_numeral tail → read_digits 10 tail acc = acc.
Proof.
  destruct tail as [|c tail]; [reflexivity |].
  intros [Hc _]. cbn [read_digits]. by rewrite Hc.
Qed.

(** A string that begins with a digit is read from its first character on,
    in radix 10, unless it begins with [0x]. *)
Lemma parseInt_digit_first (d : nat) (rest : string) :
  (d < 10)%nat →
  (∀ t, rest ≠ String "x" t ∧ rest ≠ String "X" t) →
  parseInt (String (digit_char d) rest) =
  match read_digits 10 (String (digit_char d) rest) None with
  | None => NaN
  | Some m => round_double m
  end.
Proof.
  intros Hd Hrest.
  destruct d as [|d].
  - destruct rest as [|c rest]; [reflexivity |].
    destruct (Hrest rest) as [Hx HX].
    destruct c as [[] [] [] [] [] [] [] []]; try reflexivity; congruence.
  - do 9 (destruct d as [|d]; [reflexivity |]). lia.
Qed.

Lemma numeral_not_x (ds : list nat) (tail t : string) :
  Forall (λ d, d < 10)%nat ds → ends_numeral tail →
  digits_string ds +:+ tail ≠ String "x" t ∧ digits_string ds +:+ tail ≠ String "X" t.
Proof.
  intros Hds Htail. destruct Hds as [|d ds Hd _].
  - rewrite string_app_nil. destruct tail as [|c tail]; [by split |].
    destruct Htail as (_ & Hx & HX). split; congruence.
  - cbn [digits_string]. rewrite string_app_cons.
    do 10 (destruct d as [|d]; [by split |]). lia.
Qed.

(** [parseInt] on a numeral followed by something else reads the numeral. *)
Lemma parseInt_numeral (ds : list nat) (tail : string) :
  ds ≠ [] → Forall (λ d, d < 10)%nat ds → ends_numeral tail →
  parseInt (digits_string ds +:+ tail) = round_double (digits_value ds).
Proof.
  intros Hne Hds Htail.
  destruct ds as [|d ds]; [done |].
  apply Forall_cons in Hds as [Hd Hds].
  assert (Hall : Forall (λ d, d < 10)%nat (d :: ds)) by (by constructor).
  pose proof (read_digits_numeral (d :: ds) tail None Hall) as Hread.
  cbn [digits_string] in *. rewrite string_app_cons in *.
  rewrite parseInt_digit_first; [| assumption | intros t; by apply numeral_not_x].
  rewrite Hread, read_digits_stop by assumption.
  reflexivity.
Qed.

Lemma parseInt_space (s : string) : parseInt (String " " s) = parseInt s.
Proof. reflexivity. Qed.

Lemma round_double_exact (z : Z) :
  (- 2 ^ 53 < z < 2 ^ 53)%Z → round_double z = Num z.
Proof.
  intros Hz. unfold round_double.
  destruct (Z.leb_spec (Z.log2 (Z.abs z)) 52) as [_ | Hlog]; [reflexivity |].
  destruct (decide (z = 0%Z)) as [-> | Hz0]; [simpl in Hlog; lia |].
  assert (Z.log2 (Z.abs z) < 53)%Z by (apply Z.log2_lt_pow2; lia).
  lia.
Qed.

Lemma indexOf_from_skip (c0 : ascii) (p a t : string) (i : Z) :
  Forall (λ c, c ≠ c0) (list_ascii_of_string a) →
  indexOf_from (String c0 p) (a +:+ t) i =
  indexOf_from (String c0 p) t (i + Z.of_nat (String.length a)).
Proof.
  revert i. induction a as [|c a IH]; intros i Ha.
  - rewrite string_app_nil. simpl. by rewrite Z.add_0_r.
  - simpl in Ha. apply Forall_cons in Ha as [Hc Ha].
    rewrite string_app_cons. cbn [indexOf_from].
    assert (Hp : startsWith (String c0 p) (String c (a +:+ t)) = false).
    { unfold startsWith. simpl. destruct (ascii_dec c0 c); [congruence | reflexivity]. }
    rewrite Hp, IH by assumption.
    f_equal. simpl String.length. lia.
Qed.

Lemma digits_value_nonneg (ds : list nat) : (0 <= digits_value ds)%Z.
Proof.
  unfold digits_value.
  assert (H : ∀ acc, (0 <= acc)%Z →
            (0 <= foldl (λ a d, a * 10 + Z.of_nat d)%Z acc ds)%Z).
  { induction ds as [|d ds IH]; intros acc Hacc; simpl; [exact Hacc |].
    apply IH. lia. }
  apply H. lia.
Qed.

(** X4. A transaction-start line of the form
    [<text without comma>, ACTIVE <numeral> sec<anything>] makes the new
    accumulator with the number of the numeral as its active time (the
    numeral itself below 2^53, the nearest double beyond) and the line as
    its only detail line. *)
Theorem start_line_active_time (a rest : string) (ds : list nat) (st : parser_state) :
  let line := a +:+ ", ACTIVE " +:+ digits_string ds +:+ " sec" +:+ rest in
  isStart line = true →
  Forall (λ c, c ≠ ","%char) (list_ascii_of_string a) →
  ds ≠ [] →
  Forall (λ d, d < 10)%nat ds →
  heap (loop_body line st) !! current (loop_body line st) =
    Some {| activeTime := round_double (digits_value ds); info := [line] |}
  ∧ ((digits_value ds < 2 ^ 53)%Z → round_double (digits_value ds) = Num (digits_value ds)).
Proof.
  intros line Hstart Ha Hne Hds. split.
  - rewrite loop_body_current, loop_body_heap, Hstart.
    rewrite lookup_app_r by lia. rewrite Nat.sub_diag. simpl. do 2 f_equal.
    assert (Hidx : indexOf active_marker line = Z.of_nat (String.length a)).
    { unfold indexOf, active_marker, line. by rewrite indexOf_from_skip. }
    rewrite Hidx. unfold slice.
    destruct (Z.ltb_spec (Z.of_nat (String.length a) + 8) 0) as [? | _]; [lia |].
    rewrite Z.min_l.
    2:{ unfold line. rewrite string_app_length. simpl String.length. lia. }
    replace (Z.to_nat (Z.of_nat (String.length a) + 8)) with (String.length a + 8)%nat by lia.
    unfold line. rewrite string_drop_add, string_drop_app.
    change (string_drop 8 (", ACTIVE " +:+ digits_string ds +:+ " sec" +:+ rest))
      with (String " " (digits_string ds +:+ " sec" +:+ rest)).
    rewrite parseInt_space. by apply parseInt_numeral.
  - intros Hlt. apply round_double_exact.
    pose proof (digits_value_nonneg ds). lia.
Qed.

Lemma start_line_active_time_witness :
  heap (loop_body ("---TRANSACTION 1" +:+ ", ACTIVE " +:+ digits_string [4; 2] +:+ " sec" +:+ "")
          initial_state) !! 1%nat =
  Some {| activeTime := Num 42; info := ["---TRANSACTION 1, ACTIVE 42 sec"] |}.
Proof.
  destruct (start_line_active_time "---TRANSACTION 1" "" [4; 2]%nat initial_state)
    as [H _].
  - reflexivity.
  - repeat constructor; discriminate.
  - discriminate.
  - repeat constructor.
  - exact H.
Defined.

Lemma split_numeral_head (ds : list nat) (rest : string) :
  Forall (λ d, d < 10)%nat ds →
  ∃ x xs, split " " (digits_string ds +:+ "," +:+ rest) =
          (digits_string ds +:+ "," +:+ x) :: xs.
Proof.
  induction 1 as [|d ds Hd _ IH].
  - rewrite !string_app_nil. rewrite string_app_cons, string_app_nil. simpl.
    destruct (split " " rest) as [|x xs] eqn:Hs; [by apply split_nonempty in Hs |].
    by exists x, xs.
  - destruct IH as (x & xs & IH).
    cbn [digits_string]. rewrite string_app_cons. cbn [split].
    assert (Hsp : Ascii.eqb (digit_char d) " " = false)
      by (do 10 (destruct d as [|d]; [reflexivity |]); lia).
    rewrite Hsp, IH. by exists x, xs.
Qed.

(** X5. An id line of the form [MariaDB thread id <numeral>,<anything>] has
    the number of the numeral as its key, and the loop stores the current
    accumulator under that key. *)
Theorem thread_line_key (rest : string) (ds : list nat) (st : parser_state) :
  let line := "MariaDB thread id " +:+ digits_string ds +:+ "," +:+ rest in
  ds ≠ [] →
  Forall (λ d, d < 10)%nat ds →
  threadId line = round_double (digits_value ds)
  ∧ transactions (loop_body line st) !! round_double (digits_value ds) = Some (current st).
Proof.
  intros line Hne Hds.
  assert (Hkey : threadId line = round_double (digits_value ds)).
  { unfold threadId, line.
    change (split " " ("MariaDB thread id " +:+ digits_string ds +:+ "," +:+ rest))
      with ("MariaDB" :: "thread" :: "id" :: split " " (digits_string ds +:+ "," +:+ rest)).
    destruct (split_numeral_head ds rest Hds) as (x & xs & ->).
    simpl. unfold parseInt_opt. simpl default.
    apply parseInt_numeral; [assumption | assumption |].
    simpl. repeat split; discriminate. }
  split; [exact Hkey |].
  assert (Hth : isThread line = true) by reflexivity.
  rewrite loop_body_transactions, Hth, Hkey, lookup_insert_eq.
  rewrite loop_body_current. by rewrite (thread_not_start _ Hth).
Qed.

Lemma thread_line_key_witness :
  threadId ("MariaDB thread id " +:+ digits_string [1; 0; 7] +:+ "," +:+ " OS thread") = Num 107.
Proof.
  destruct (thread_line_key " OS thread" [1; 0; 7]%nat initial_state) as [H _].
  - discriminate.
  - repeat constructor.
  - exact H.
Defined.

(** ** The parser and the join together *)

(** X6. A process is given a transaction exactly when an id line read from
    the report has the process id as its key, and the transaction it is
    given has such an id line among its detail lines. *)
Theorem join_by_thread_id (innoDbStatus : string) (d : TransactionInfoDict)
    (process : Process) :
  parseInnoDbStatus innoDbStatus = Return d →
  (is_Some (transaction (withTransaction d process)) ↔
   ∃ l, l ∈ read_lines innoDbStatus ∧ isThread l = true ∧ threadId l = Id process)
  ∧ (∀ t, transaction (withTransaction d process) = Some t →
          ∃ l, l ∈ info t ∧ isThread l = true ∧ threadId l = Id process).
Proof.
  intros Hd. simpl. split.
  - rewrite <- (dict_get_parsed _ _ (Id process) Hd). by apply entries_keys.
  - intros t Ht. unfold dict_get in Ht.
    destruct (entries d !! Id process) as [r|] eqn:Hr; simpl in Ht; [| discriminate].
    destruct (entry_block _ _ _ _ Hd Hr) as (t' & l & Ht' & _ & Hl & Hth & Hk).
    assert (t' = t) by congruence. subst t'. by exists l.
Qed.

Lemma join_by_thread_id_witness :
  parseInnoDbStatus report_two_threads = Return dict_two_threads
  ∧ ∀ t, transaction (withTransaction dict_two_threads (sample_process 8 0)) = Some t →
         ∃ l, l ∈ info t ∧ isThread l = true ∧ threadId l = Num 8.
Proof.
  assert (H : parseInnoDbStatus report_two_threads = Return dict_two_threads)
    by (vm_compute; reflexivity).
  split; [exact H |].
  exact (proj2 (join_by_thread_id report_two_threads dict_two_threads
                  (sample_process 8 0) H)).
Defined.

(** X7. The page's server side fails exactly on a status text that has no
    line with the section marker; on every other text it returns as many
    rows as there are processes, the rows are the joined processes in some
    order, and each row carries the mapping's entry for its own id. *)
Theorem getServerSideProps_outcome (processList : list Process) (innoDbStatusString : string) :
  (getServerSideProps processList innoDbStatusString = Throw TypeError ↔
   Forall (λ line, includes section_marker line = false)
     (split newline innoDbStatusString))
  ∧ (∀ rows, getServerSideProps processList innoDbStatusString = Return rows →
       ∃ d, parseInnoDbStatus innoDbStatusString = Return d
            ∧ length rows = length processList
            ∧ Permutation rows (processListWithTransaction d processList)
            ∧ Forall (λ p, transaction p = dict_get d (pId p)) rows).
Proof.
  unfold getServerSideProps. split.
  - split.
    + intros Hthrow.
      destruct (marker_cases innoDbStatusString) as [Hno | (line & Hin & Hline)];
        [assumption |].
      rewrite (parseInnoDbStatus_marker _ _ Hin Hline) in Hthrow. discriminate.
    + intros Hno. by rewrite (parseInnoDbStatus_no_marker _ Hno).
  - intros rows Hrows.
    destruct (parseInnoDbStatus innoDbStatusString) as [d|e]; [| discriminate].
    simpl in Hrows. injection Hrows as <-.
    exists d. split; [reflexivity |].
    split; [| split].
    + rewrite sort_length. unfold processListWithTransaction. apply length_map.
    + apply sort_perm.
    + rewrite (sort_perm compareProcesses).
      unfold processListWithTransaction. apply Forall_map.
      apply Forall_forall. intros p _. reflexivity.
Qed.

(** ** The page: the text colour *)

Lemma substring_zero (n : nat) (s : string) : String.substring n 0 s = "".
Proof.
  revert s. induction n as [|n IH]; intros s; destruct s as [|c s]; simpl;
    try reflexivity. apply IH.
Qed.

(** A slice whose end is not behind its start is empty. *)
Lemma slice_range_empty (start stop : Z) (s : string) :
  (0 <= stop <= start)%Z → slice_range start stop s = "".
Proof.
  intros H. unfold slice_range.
  destruct (Z.ltb_spec start 0), (Z.ltb_spec stop 0); try lia.
  replace (Z.to_nat (Z.max _ 0)) with 0%nat by lia.
  apply substring_zero.
Qed.

Lemma number_add_NaN_r (x : number) : number_add x NaN = NaN.
Proof. by destruct x. Qed.

(** X8. [blackOrWhite] answers white for every argument: the slices for the
    green and the blue part, [slice(3, 2)] and [slice(5, 2)], end before
    they start and are empty, [parseInt] of the empty string is NaN, and the
    brightness is NaN, which is not greater than 155.  (This holds whatever
    the division of two finite numbers gives.) *)
Theorem blackOrWhite_always_white (quotient : Z → Z → number) (hex : string) :
  blackOrWhite quotient hex = "#ffffff".
Proof.
  unfold blackOrWhite.
  rewrite (slice_range_empty 3 2), (slice_range_empty 5 2) by lia.
  change (parseInt_radix "" 16) with NaN.
  change (number_mul NaN (Num 587)) with NaN.
  rewrite number_add_NaN_r.
  reflexivity.
Qed.

(** ** The order of the rows *)

Lemma round_double_pos_2 (z : Z) : (0 < z)%Z → number_pos (round_double z) = true.
Proof.
  intros Hz. unfold round_double.
  destruct (Z.leb_spec (Z.log2 (Z.abs z)) 52) as [Hle | Hgt]; simpl.
  - by apply Z.ltb_lt.
  - rewrite Z.abs_eq in * by lia.
    set (sh := (Z.log2 z - 52)%Z) in *.
    assert (Hq : (0 < Z.shiftr z sh)%Z).
    { rewrite Z.shiftr_div_pow2 by lia.
      apply Z.div_str_pos. split; [apply Z.pow_pos_nonneg; lia |].
      transitivity (2 ^ Z.log2 z)%Z; [apply Z.pow_le_mono_r; lia |].
      apply Z.log2_spec. lia. }
    match goal with |- context [Z.shiftl ?q sh] => set (q' := q) end.
    assert (Hq' : (0 < q')%Z).
    { unfold q'.
      repeat match goal with |- context [if ?b then _ else _] => destruct b end; lia. }
    assert (Hv : (0 < Z.shiftl q' sh)%Z).
    { rewrite Z.shiftl_mul_pow2 by lia. apply Z.mul_pos_pos; [assumption |].
      apply Z.pow_pos_nonneg; lia. }
    destruct (Z.shiftl 1 1024 <=? Z.shiftl q' sh)%Z; simpl.
    + by destruct (Z.ltb_spec z 0); [lia |].
    + apply Z.ltb_lt. rewrite Z.sgn_pos by lia. lia.
Qed.

Lemma number_pos_sub (x y : Z) :
  number_pos (number_sub (Num x) (Num y)) = (y <? x)%Z.
Proof.
  simpl. destruct (Z.ltb_spec y x) as [H | H].
  - apply round_double_pos_2. lia.
  - destruct (number_pos (round_double (x - y))) eqn:Hp; [| reflexivity].
    apply round_double_pos in Hp. lia.
Qed.

Lemma in_order_rank (a b : ProcessWithTransaction) :
  finite_key a → finite_key b →
  in_order compareProcesses a b → rank_le a b.
Proof.
  unfold finite_key, in_order, rank_le, compareProcesses, sort_key.
  intros [x Hx] [y Hy].
  destruct (transaction a) as [ta|], (transaction b) as [tb|];
    destruct Hx as [Hx | Hx], Hy as [Hy | Hy]; try discriminate;
    injection Hx as Hx; injection Hy as Hy; rewrite Hx, Hy;
    try rewrite number_pos_sub; simpl; try done.
  all: intros H; apply Z.ltb_ge in H; exact H.
Qed.

Lemma rank_le_trans (a b c : ProcessWithTransaction) :
  rank_le a b → rank_le b c → rank_le a c.
Proof.
  unfold rank_le.
  destruct (sort_key a) as [[| |x]|[| |x]], (sort_key b) as [[| |y]|[| |y]],
    (sort_key c) as [[| |z]|[| |z]]; try done; lia.
Qed.

Lemma Sorted_rank (l : list ProcessWithTransaction) :
  Forall finite_key l → Sorted (in_order compareProcesses) l → Sorted rank_le l.
Proof.
  intros Hfin Hsorted. induction Hsorted as [|a l Hl IH Hhd]; [constructor |].
  apply Forall_cons in Hfin as [Ha Hfin].
  constructor; [by apply IH |].
  destruct Hhd as [|b l Hab]; constructor.
  apply Forall_cons in Hfin as [Hb _]. by apply in_order_rank.
Qed.

Lemma StronglySorted_lookup {A} (R : A → A → Prop) (l : list A) (i j : nat) (a b : A) :
  StronglySorted R l → (i < j)%nat → l !! i = Some a → l !! j = Some b → R a b.
Proof.
  intros Hs. revert i j. induction Hs as [|x l Hs IH Hall]; intros i j Hij Hi Hj.
  - by rewrite lookup_nil in Hi.
  - destruct j as [|j]; [lia |]. simpl in Hj.
    destruct i as [|i]; simpl in Hi.
    + injection Hi as <-. rewrite Forall_forall in Hall.
      apply Hall. by eapply list_elem_of_lookup_2.
    + apply (IH i j); [lia | assumption | assumption].
Qed.

(** Rows with finite keys come out in the intended order, pair by pair. *)
Lemma sort_rank (l : list ProcessWithTransaction) (i j : nat)
    (a b : ProcessWithTransaction) :
  Forall finite_key l → (i < j)%nat →
  sort compareProcesses l !! i = Some a →
  sort compareProcesses l !! j = Some b →
  rank_le a b.
Proof.
  intros Hfin Hij Hi Hj.
  assert (Hfin' : Forall finite_key (sort compareProcesses l))
    by (by rewrite (sort_perm compareProcesses)).
  pose proof (Sorted_rank _ Hfin' (sort_processes_Sorted l)) as Hs.
  apply Sorted_StronglySorted in Hs; [| intros x y z; apply rank_le_trans].
  by eapply StronglySorted_lookup.
Qed.

(** X9. "Order by transaction.activeTime desc, then by process.Time desc":
    when the numbers ordered by are finite, of any two rows of the sorted
    list the later one never has the greater number within its group (the
    active time among rows with a transaction, the time among rows
    without), and a row without a transaction never precedes one with. *)
Theorem rows_descending (l : list ProcessWithTransaction) (i j : nat)
    (a b : ProcessWithTransaction) :
  Forall finite_key l → (i < j)%nat →
  sort compareProcesses l !! i = Some a →
  sort compareProcesses l !! j = Some b →
  match transaction a, transaction b with
  | Some ta, Some tb => number_gt (activeTime tb) (activeTime ta) = false
  | None, None => number_gt (pTime b) (pTime a) = false
  | Some _, None => True
  | None, Some _ => False
  end.
Proof.
  intros Hfin Hij Hi Hj.
  pose proof (sort_rank l i j a b Hfin Hij Hi Hj) as Hr.
  unfold rank_le, sort_key in Hr.
  destruct (transaction a) as [ta|], (transaction b) as [tb|]; try done.
  - destruct (activeTime ta) as [| |x], (activeTime tb) as [| |y]; try done.
    simpl. by apply Z.ltb_ge.
  - by destruct (pTime a) as [| |x], (activeTime tb).
  - destruct (pTime a) as [| |x], (pTime b) as [| |y]; try done.
    simpl. by apply Z.ltb_ge.
Qed.

Lemma rows_descending_witness :
  Forall finite_key sample_rows_mixed
  ∧ map (λ p, (pId p, activeTime <$> transaction p, pTime p))
      (sort compareProcesses sample_rows_mixed) =
    [ (Num 7, Some (Num 50), Num 0); (Num 8, Some (Num 20), Num 0);
      (Num 2, None, Num 30); (Num 1, None, Num 10) ]
  ∧ number_gt (Num 20) (Num 50) = false
  ∧ number_gt (Num 10) (Num 30) = false.
Proof.
  assert (Hfin : Forall finite_key sample_rows_mixed)
    by (repeat constructor; vm_compute; eexists; (by left) || (by right)).
  split; [exact Hfin |].
  split; [vm_compute; reflexivity |].
  split.
  - exact (rows_descending sample_rows_mixed 0 1
             (withTransaction dict_long (sample_process 7 0))
             (withTransaction dict_long (sample_process 8 0))
             Hfin ltac:(lia) eq_refl eq_refl).
  - exact (rows_descending sample_rows_mixed 2 3
             (withTransaction dict_long (sample_process 2 30))
             (withTransaction dict_long (sample_process 1 10))
             Hfin ltac:(lia) eq_refl eq_refl).
Defined.

Lemma rank_le_antisym (a b : ProcessWithTransaction) :
  rank_le a b → rank_le b a → sort_key a = sort_key b.
Proof.
  unfold rank_le.
  destruct (sort_key a) as [[| |x]|[| |x]], (sort_key b) as [[| |y]|[| |y]];
    try done; intros; do 2 f_equal; lia.
Qed.

Lemma rank_le_refl (a : ProcessWithTransaction) : finite_key a → rank_le a a.
Proof.
  unfold finite_key, rank_le. intros [z [-> | ->]]; lia.
Qed.

Lemma stable_sorted_unique (out1 out2 : list ProcessWithTransaction) :
  Forall finite_key out1 →
  Permutation out1 out2 →
  StronglySorted rank_le out1 →
  StronglySorted rank_le out2 →
  (∀ k, filter (λ p, sort_key p = k) out1 = filter (λ p, sort_key p = k) out2) →
  out1 = out2.
Proof.
  revert out2. induction out1 as [|a1 t1 IH]; intros out2 Hfin Hperm Hs1 Hs2 Hfilter.
  - by apply Permutation_nil in Hperm.
  - destruct out2 as [|a2 t2].
    { symmetry in Hperm. by apply Permutation_nil in Hperm. }
    apply Forall_cons in Hfin as [Hfin1 Hfin].
    apply StronglySorted_inv in Hs1 as [Hs1 Hall1].
    apply StronglySorted_inv in Hs2 as [Hs2 Hall2].
    assert (H12 : rank_le a1 a2).
    { assert (Hin : a2 ∈ a1 :: t1) by (rewrite Hperm; apply list_elem_of_here).
      apply elem_of_cons in Hin as [-> | Hin]; [by apply rank_le_refl |].
      rewrite Forall_forall in Hall1. by apply Hall1. }
    assert (H21 : rank_le a2 a1).
    { assert (Hin : a1 ∈ a2 :: t2) by (rewrite <- Hperm; apply list_elem_of_here).
      apply elem_of_cons in Hin as [-> | Hin]; [by apply rank_le_refl |].
      rewrite Forall_forall in Hall2. by apply Hall2. }
    pose proof (rank_le_antisym a1 a2 H12 H21) as Hkey.
    pose proof (Hfilter (sort_key a1)) as Hhead.
    rewrite filter_cons_True in Hhead by reflexivity.
    rewrite filter_cons_True in Hhead by (by symmetry).
    injection Hhead as Ha Hrest. subst a2.
    f_equal. apply IH; [assumption | by eapply Permutation_cons_inv | assumption.. |].
    intros k. specialize (Hfilter k).
    destruct (decide (sort_key a1 = k)) as [Hk | Hk].
    + rewrite !filter_cons_True in Hfilter by assumption. by injection Hfilter.
    + by rewrite !filter_cons_False in Hfilter by assumption.
Qed.

Lemma StronglySorted_rank (l : list ProcessWithTransaction) :
  Forall finite_key l →
  StronglySorted (in_order compareProcesses) l → StronglySorted rank_le l.
Proof.
  intros Hfin Hs. induction Hs as [|a l Hs IH Hall]; [constructor |].
  apply Forall_cons in Hfin as [Ha Hfin].
  constructor; [by apply IH |].
  rewrite Forall_forall in Hall, Hfin. apply Forall_forall. intros b Hb.
  apply in_order_rank; [assumption | by apply Hfin | by apply Hall].
Qed.

(** On finite keys the comparator is consistent, and the sorted list is the
    only arrangement of the input that is in the comparator's order and
    keeps the input order of rows with equal keys: the arrangement that
    [Array.prototype.sort] returns in every engine. *)
Lemma sort_is_the_stable_order (l out : list ProcessWithTransaction) :
  Forall finite_key l →
  Permutation out l →
  StronglySorted (in_order compareProcesses) out →
  (∀ k, filter (λ p, sort_key p = k) out = filter (λ p, sort_key p = k) l) →
  out = sort compareProcesses l.
Proof.
  intros Hfin Hperm Hsorted Hstable.
  assert (Hfin_out : Forall finite_key out) by (by rewrite Hperm).
  assert (Hfin_sort : Forall finite_key (sort compareProcesses l))
    by (by rewrite (sort_perm compareProcesses)).
  apply stable_sorted_unique.
  - assumption.
  - by rewrite Hperm, (sort_perm compareProcesses).
  - by apply StronglySorted_rank.
  - pose proof (Sorted_rank _ Hfin_sort (sort_processes_Sorted l)) as Hs.
    apply Sorted_StronglySorted in Hs; [assumption |].
    intros x y z. apply rank_le_trans.
  - intros k. rewrite Hstable. symmetry. by apply sort_stable_finite.
Qed.

Lemma rowClassName_red (p : ProcessWithTransaction) :
  rowClassName p = "bg-red-300" ↔
  ∃ t, transaction p = Some t
       ∧ number_truthy (activeTime t) = true ∧ number_gt (activeTime t) (Num 10) = true.
Proof.
  unfold rowClassName. destruct (transaction p) as [t|].
  - split.
    + intros H. exists t. split; [reflexivity |].
      destruct (number_truthy (activeTime t)), (number_gt (activeTime t) (Num 10));
        simpl in H; try discriminate; by split.
    + intros (t' & Ht & Htr & Hgt). injection Ht as <-. by rewrite Htr, Hgt.
  - split; [discriminate | intros (t & ? & _); discriminate].
Qed.

(** X10. When the numbers ordered by are finite, the rows marked red (a
    transaction active for more than 10 s) are at the top of the table:
    every row before a red row is red. *)
Theorem red_rows_first (l : list ProcessWithTransaction) (i j : nat)
    (a b : ProcessWithTransaction) :
  Forall finite_key l → (i < j)%nat →
  sort compareProcesses l !! i = Some a →
  sort compareProcesses l !! j = Some b →
  rowClassName b = "bg-red-300" → rowClassName a = "bg-red-300".
Proof.
  intros Hfin Hij Hi Hj Hred.
  pose proof (sort_rank l i j a b Hfin Hij Hi Hj) as Hr.
  apply rowClassName_red in Hred as (tb & Htb & _ & Hgt).
  apply rowClassName_red.
  unfold rank_le, sort_key in Hr. rewrite Htb in Hr.
  destruct (transaction a) as [ta|].
  - exists ta. split; [reflexivity |].
    destruct (activeTime ta) as [| |x], (activeTime tb) as [| |y]; try done.
    simpl in *. apply Z.ltb_lt in Hgt.
    split; [apply negb_true_iff, Z.eqb_neq; lia | apply Z.ltb_lt; lia].
  - by destruct (pTime a) as [| |x], (activeTime tb).
Qed.

Lemma red_rows_first_witness :
  sort compareProcesses sample_rows_long !! 0%nat
    = Some (withTransaction dict_long (sample_process 7 0))
  ∧ sort compareProcesses sample_rows_long !! 1%nat
    = Some (withTransaction dict_long (sample_process 8 0))
  ∧ rowClassName (withTransaction dict_long (sample_process 8 0)) = "bg-red-300"
  ∧ rowClassName (withTransaction dict_long (sample_process 7 0)) = "bg-red-300".
Proof.
  assert (H0 : sort compareProcesses sample_rows_long !! 0%nat
               = Some (withTransaction dict_long (sample_process 7 0)))
    by (vm_compute; reflexivity).
  assert (H1 : sort compareProcesses sample_rows_long !! 1%nat
               = Some (withTransaction dict_long (sample_process 8 0)))
    by (vm_compute; reflexivity).
  assert (Hred : rowClassName (withTransaction dict_long (sample_process 8 0))
                 = "bg-red-300") by (vm_compute; reflexivity).
  split; [exact H0 | split; [exact H1 | split; [exact Hred |]]].
  refine (red_rows_first sample_rows_long 0 1 _ _ _ _ H0 H1 Hred).
  - repeat constructor; vm_compute; eexists; (by left) || (by right).
  - lia.
Defined.

(** ** The page: the colour of a name *)

Lemma byte_cases (P : Z → Prop) :
  (∀ n, (n < 256)%nat → P (Z.of_nat n)) → ∀ v, (0 <= v < 256)%Z → P v.
Proof. intros H v Hv. rewrite <- (Z2Nat.id v) by lia. apply H. lia. Qed.

Lemma below_cases (P : nat → Prop) (k : nat) :
  Forall P (seq 0 k) → ∀ n, (n < k)%nat → P n.
Proof.
  intros H n Hn. rewrite Forall_forall in H. apply H.
  apply list_elem_of_In, in_seq. lia.
Qed.

(** The two characters the second loop appends for a byte. *)
Lemma byte_slice (v : Z) :
  (0 <= v < 256)%Z → slice (-2) ("00" +:+ toString16 (Num v)) = byte_hex v.
Proof.
  revert v. apply byte_cases. apply below_cases.
  apply Forall_forall. intros n Hn.
  apply list_elem_of_In, in_seq in Hn.
  assert (Hb : forallb (λ n, String.eqb
                  (slice (-2) ("00" +:+ toString16 (Num (Z.of_nat n))))
                  (byte_hex (Z.of_nat n))) (seq 0 256) = true)
    by (vm_compute; reflexivity).
  rewrite forallb_forall in Hb. apply String.eqb_eq, Hb, in_seq. lia.
Qed.

Lemma byte_hex_chars (v : Z) :
  (0 <= v < 256)%Z →
  is_hex_char (hex_digit (v / 16)) = true ∧ is_hex_char (hex_digit (v mod 16)) = true.
Proof.
  revert v. apply byte_cases. apply below_cases.
  apply Forall_forall. intros n Hn.
  apply list_elem_of_In, in_seq in Hn.
  assert (Hb : forallb (λ n, is_hex_char (hex_digit (Z.of_nat n / 16))
                             && is_hex_char (hex_digit (Z.of_nat n mod 16)))
                 (seq 0 256) = true)
    by (vm_compute; reflexivity).
  rewrite forallb_forall in Hb. apply andb_true_iff, Hb, in_seq. lia.
Qed.

Lemma wrap32_shape (z : Z) : ∃ k, wrap32 z = (z + k * 2 ^ 32)%Z.
Proof.
  unfold wrap32. pose proof (Z.mod_eq z (2 ^ 32) ltac:(lia)) as Hm.
  destruct (z mod 2 ^ 32 <? 2 ^ 31)%Z.
  - exists (- (z / 2 ^ 32))%Z. lia.
  - exists (- (z / 2 ^ 32) - 1)%Z. lia.
Qed.

Lemma wrap32_mod_256 (z : Z) : (wrap32 z mod 256 = z mod 256)%Z.
Proof.
  destruct (wrap32_shape z) as [k ->].
  replace (z + k * 2 ^ 32)%Z with (z + (k * 2 ^ 24) * 256)%Z by lia.
  apply Z_mod_plus_full.
Qed.

(** The byte the second loop takes in round [i]. *)
Lemma colour_step_byte (hash : number) (colour : string) (i : Z) :
  (0 <= i < 4)%Z →
  colour_step hash colour i =
  colour +:+ byte_hex (ToInt32 hash / 2 ^ (8 * i) mod 256).
Proof.
  intros Hi. unfold colour_step, bit_and, shift_right.
  assert (Hk : ((i * 8) mod 32 = 8 * i)%Z) by (rewrite Z.mod_small; lia).
  rewrite Hk. change (ToInt32 (Num 255)) with (Z.ones 8).
  rewrite Z.land_ones by lia. rewrite Z.shiftr_div_pow2 by lia.
  change (2 ^ 8)%Z with 256%Z.
  cbn [ToInt32]. rewrite wrap32_mod_256.
  rewrite byte_slice; [reflexivity |].
  apply Z.mod_pos_bound. lia.
Qed.

Lemma stringToColor_bytes (c : ascii) (s : string) :
  let h := ToInt32 (hash_loop (String c s) (Num 0)) in
  stringToColor (Some (String c s)) = colour_of_hash h.
Proof.
  intros h. unfold stringToColor. cbn [foldl].
  rewrite !colour_step_byte by lia. fold h.
  change (2 ^ (8 * 0))%Z with 1%Z. change (2 ^ (8 * 1))%Z with 256%Z.
  change (2 ^ (8 * 2))%Z with 65536%Z. rewrite Z.div_1_r.
  reflexivity.
Qed.

Lemma colour_of_hash_is_colour (h : Z) : is_colour (colour_of_hash h).
Proof.
  unfold colour_of_hash, byte_hex.
  destruct (byte_hex_chars (h mod 256)) as [? ?]; [apply Z.mod_pos_bound; lia |].
  destruct (byte_hex_chars (h / 256 mod 256)) as [? ?]; [apply Z.mod_pos_bound; lia |].
  destruct (byte_hex_chars (h / 65536 mod 256)) as [? ?]; [apply Z.mod_pos_bound; lia |].
  do 6 eexists. split; [reflexivity |].
  repeat constructor; assumption.
Qed.

(** X11. For every argument, null and the empty string included,
    [stringToColor] returns [#] followed by six digits of radix 16 in lower
    case. *)
Theorem stringToColor_is_colour (str : option string) : is_colour (stringToColor str).
Proof.
  destruct str as [[|c s]|].
  - change (stringToColor (Some "")) with (colour_of_hash 0). apply colour_of_hash_is_colour.
  - rewrite stringToColor_bytes. apply colour_of_hash_is_colour.
  - change (stringToColor None) with (colour_of_hash 0). apply colour_of_hash_is_colour.
Qed.

Lemma wrap32_bounds (z : Z) : (- 2147483648 <= wrap32 z < 2147483648)%Z.
Proof.
  unfold wrap32. pose proof (Z.mod_pos_bound z (2 ^ 32) ltac:(lia)) as Hm.
  change (2 ^ 32)%Z with 4294967296%Z in *. change (2 ^ 31)%Z with 2147483648%Z.
  destruct (Z.ltb_spec (z mod 4294967296) 2147483648); lia.
Qed.

Lemma mod_2_32_shape (a b : Z) :
  (a mod 2 ^ 32 = b mod 2 ^ 32)%Z ↔ ∃ k, a = (b + k * 2 ^ 32)%Z.
Proof.
  split.
  - intros H. exists (a / 2 ^ 32 - b / 2 ^ 32)%Z.
    pose proof (Z.mod_eq a (2 ^ 32) ltac:(lia)).
    pose proof (Z.mod_eq b (2 ^ 32) ltac:(lia)). lia.
  - intros [k ->]. apply Z_mod_plus_full.
Qed.

(** The bytes of the colour depend on the hash modulo 2^32 only. *)
Lemma byte_congr (a b e : Z) :
  (0 <= e <= 24)%Z → (a mod 2 ^ 32 = b mod 2 ^ 32)%Z →
  ((a / 2 ^ e) mod 2 ^ 8 = (b / 2 ^ e) mod 2 ^ 8)%Z.
Proof.
  intros He Hab. apply Z.bits_inj'. intros n Hn.
  destruct (Z.lt_ge_cases n 8) as [Hlt | Hge].
  - rewrite !Z.mod_pow2_bits_low by lia. rewrite !Z.div_pow2_bits by lia.
    rewrite <- (Z.mod_pow2_bits_low a 32), <- (Z.mod_pow2_bits_low b 32) by lia.
    by rewrite Hab.
  - by rewrite !Z.mod_pow2_bits_high by lia.
Qed.

Lemma colour_of_hash_congr (a b : Z) :
  (a mod 2 ^ 32 = b mod 2 ^ 32)%Z → colour_of_hash a = colour_of_hash b.
Proof.
  intros Hab. unfold colour_of_hash.
  pose proof (byte_congr a b 0 ltac:(lia) Hab) as H0.
  pose proof (byte_congr a b 8 ltac:(lia) Hab) as H1.
  pose proof (byte_congr a b 16 ltac:(lia) Hab) as H2.
  change (2 ^ 0)%Z with 1%Z in H0. rewrite !Z.div_1_r in H0.
  change (2 ^ 8)%Z with 256%Z in *. change (2 ^ 16)%Z with 65536%Z in *.
  by rewrite H0, H1, H2.
Qed.

(** One round of the first loop, while the numbers stay below 2^53: the new
    hash is the character plus 31 times the old hash, up to a multiple of
    2^32. *)
Lemma hash_step_exact (h c : Z) :
  (Z.abs h <= 9000000000000000)%Z → (0 <= c < 256)%Z →
  ∃ h', number_add (Num c) (number_sub (shift_left (Num h) 5) (Num h)) = Num h'
        ∧ (h' mod 2 ^ 32 = (31 * h + c) mod 2 ^ 32)%Z
        ∧ (Z.abs h' <= Z.abs h + 2147483904)%Z.
Proof.
  intros Hh Hc.
  set (w := wrap32 (Z.shiftl (wrap32 h) 5)).
  pose proof (wrap32_bounds (Z.shiftl (wrap32 h) 5)) as Hw. fold w in Hw.
  exists (c + (w - h))%Z.
  assert (Hsub : number_sub (shift_left (Num h) 5) (Num h) = Num (w - h)).
  { unfold shift_left. change (5 mod 32)%Z with 5%Z. cbn [ToInt32 number_sub]. fold w.
    apply round_double_exact. change (2 ^ 53)%Z with 9007199254740992%Z. lia. }
  rewrite Hsub. cbn [number_add].
  split; [| split].
  - apply round_double_exact. change (2 ^ 53)%Z with 9007199254740992%Z. lia.
  - apply mod_2_32_shape.
    destruct (wrap32_shape (Z.shiftl (wrap32 h) 5)) as [k1 Hk1]. fold w in Hk1.
    destruct (wrap32_shape h) as [k2 Hk2].
    rewrite Z.shiftl_mul_pow2 in Hk1 by lia. change (2 ^ 5)%Z with 32%Z in Hk1.
    exists (32 * k2 + k1)%Z. lia.
  - lia.
Qed.

Lemma nat_of_ascii_bound (c : ascii) : (0 <= Z.of_nat (nat_of_ascii c) < 256)%Z.
Proof. pose proof (nat_ascii_bounded c). lia. Qed.

Lemma hash_loop_exact (s : string) (h p n : Z) :
  (0 <= n)%Z →
  (Z.abs h <= n * 2147483904)%Z →
  (h mod 2 ^ 32 = p mod 2 ^ 32)%Z →
  (n + Z.of_nat (String.length s) <= 2097152)%Z →
  ∃ h', hash_loop s (Num h) = Num h'
        ∧ (h' mod 2 ^ 32 = poly_hash s p mod 2 ^ 32)%Z.
Proof.
  revert h p n. induction s as [|c s IH]; intros h p n Hn Hh Hp Hlen.
  - exists h. by split.
  - cbn [hash_loop poly_hash].
    simpl String.length in Hlen.
    destruct (hash_step_exact h (Z.of_nat (nat_of_ascii c)))
      as (h1 & -> & Hmod & Habs); [lia | apply nat_of_ascii_bound |].
    apply (IH h1 _ (n + 1)%Z); [lia | lia | | lia].
    rewrite Hmod. apply mod_2_32_shape.
    apply mod_2_32_shape in Hp as [k ->]. exists (31 * k)%Z. lia.
Qed.

(** X12. For a name of at most 2^21 characters, [stringToColor] writes the
    three low bytes, lowest first, of the polynomial hash
    [31^(n-1) c1 + ... + cn] of its characters: the loop's [hash] and that
    hash differ by a multiple of 2^32 (the shift wraps to 32 bits, the
    subtraction and the addition do not, but stay exact below 2^53). *)
Theorem stringToColor_poly_hash (s : string) :
  s ≠ "" → (Z.of_nat (String.length s) <= 2097152)%Z →
  stringToColor (Some s) = colour_of_hash (poly_hash s 0).
Proof.
  intros Hne Hlen. destruct s as [|c s]; [done |].
  rewrite stringToColor_bytes.
  destruct (hash_loop_exact (String c s) 0 0 0) as (h' & -> & Hmod); [lia.. |].
  apply colour_of_hash_congr. rewrite <- Hmod. cbn [ToInt32].
  apply mod_2_32_shape. destruct (wrap32_shape h') as [k ->]. by exists k.
Qed.

Lemma stringToColor_poly_hash_witness :
  stringToColor (Some "root") = colour_of_hash (poly_hash "root" 0)
  ∧ colour_of_hash (poly_hash "root" 0) = "#e28035".
Proof.
  split; [| vm_compute; reflexivity].
  apply stringToColor_poly_hash; [discriminate | simpl; lia].
Defined.

(** ** The page: the transaction text of a row *)

Lemma string_app_assoc (a b c : string) : (a +:+ b) +:+ c = a +:+ (b +:+ c).
Proof.
  induction a as [|x a IH]; [reflexivity |].
  rewrite !string_app_cons. by rewrite IH.
Qed.

Lemma string_app_nil_r (a : string) : a +:+ "" = a.
Proof. induction a as [|x a IH]; [reflexivity |]. rewrite string_app_cons. by rewrite IH. Qed.

Lemma join_cons (sep x : string) (xs : list string) :
  xs ≠ [] → join sep (x :: xs) = x +:+ sep +:+ join sep xs.
Proof. by destruct xs. Qed.

Lemma join_app (sep : string) (xs ys : list string) :
  xs ≠ [] → ys ≠ [] →
  join sep (xs ++ ys) = join sep xs +:+ sep +:+ join sep ys.
Proof.
  intros Hx Hy. induction xs as [|x xs IH]; [done |].
  destruct xs as [|x' xs].
  - simpl app. by rewrite join_cons.
  - change ((x :: x' :: xs) ++ ys) with (x :: ((x' :: xs) ++ ys)).
    rewrite join_cons by done. rewrite IH by done.
    rewrite (join_cons sep x (x' :: xs)) by done.
    by rewrite !string_app_assoc.
Qed.

Lemma join_middle (sep : string) (xs ys zs : list string) :
  ys ≠ [] → ∃ a b, join sep (xs ++ ys ++ zs) = a +:+ join sep ys +:+ b.
Proof.
  intros Hy.
  assert (Hyz : ∃ b, join sep (ys ++ zs) = join sep ys +:+ b).
  { destruct zs as [|z zs].
    - exists "". by rewrite app_nil_r, string_app_nil_r.
    - exists (sep +:+ join sep (z :: zs)). by apply join_app. }
  destruct Hyz as [b Hb].
  destruct xs as [|x xs].
  - exists "", b. by rewrite string_app_nil.
  - exists (join sep (x :: xs) +:+ sep), b.
    rewrite join_app; [| done | by destruct ys].
    by rewrite Hb, !string_app_assoc.
Qed.

(** Splitting at a character and joining with it gives the text back: the
    lines the parser reads, joined by newlines as the page joins the detail
    lines, are the status text. *)
Lemma join_split (sep : ascii) (s : string) :
  join (String sep "") (split sep s) = s.
Proof.
  induction s as [|c s IH]; [reflexivity |].
  cbn [split]. destruct (Ascii.eqb_spec c sep) as [-> | Hne].
  - rewrite join_cons by apply split_nonempty. by rewrite IH.
  - destruct (split sep s) as [|x xs] eqn:Hs; [by apply split_nonempty in Hs |].
    destruct xs as [|x' xs].
    + simpl in *. by rewrite IH.
    + rewrite join_cons by done. rewrite join_cons in IH by done.
      rewrite string_app_cons. by rewrite IH.
Qed.

Lemma before_terminator_prefix (ls : list string) :
  ∃ rest, ls = before_terminator ls ++ rest.
Proof.
  induction ls as [|l ls [rest IH]]; [by exists [] |].
  simpl. destruct (isTerminator l).
  - by exists (l :: ls).
  - exists rest. simpl. by rewrite <- IH.
Qed.

Lemma block_from_prefix (r : nat) (ls : list string) :
  ∃ rest, ls = block_from r r ls ++ rest.
Proof.
  induction ls as [|l ls [rest IH]]; [by exists [] |].
  cbn [block_from]. destruct (isStart l).
  - rewrite decide_False by lia. rewrite block_from_gt by lia. by exists (l :: ls).
  - rewrite decide_True by reflexivity. exists rest. simpl. by rewrite <- IH.
Qed.

(** The lines of a block stand together. *)
Lemma block_from_middle (n r : nat) (ls : list string) :
  ∃ before after, ls = before ++ block_from n r ls ++ after.
Proof.
  revert n. induction ls as [|l ls IH]; intros n; [by exists [], [] |].
  cbn [block_from].
  set (n' := if isStart l then S n else n).
  case_decide as Hr.
  - destruct (block_from_prefix r ls) as [rest Hrest].
    exists [], rest. simpl. rewrite Hr. by rewrite <- Hrest.
  - destruct (IH n') as (before & after & Hls).
    exists (l :: before), after. simpl. by rewrite <- Hls.
Qed.

(** X13. The text of the "Transaction Info" cell of a row, the detail lines
    of its transaction joined by newlines, is a piece of the status text as
    the server sent it: nothing in it is rearranged or made up. *)
Theorem transaction_text_verbatim (innoDbStatus : string) (d : TransactionInfoDict)
    (k : number) (t : TransactionInfo) :
  parseInnoDbStatus innoDbStatus = Return d →
  dict_get d k = Some t →
  ∃ a b, innoDbStatus = a +:+ join nl (info t) +:+ b.
Proof.
  intros Hd Hget. unfold dict_get in Hget.
  destruct (entries d !! k) as [r|] eqn:Hr; simpl in Hget; [| discriminate].
  destruct (entry_block _ _ _ _ Hd Hr) as (t' & l & Ht' & Hinfo & Hl & _).
  assert (t' = t) by congruence. subst t'.
  assert (Hne : info t ≠ []) by (intros H0; rewrite H0 in Hl; by apply elem_of_nil in Hl).
  destruct (block_from_middle 0 r (read_lines innoDbStatus)) as (b1 & a1 & Hread).
  fold (block r (read_lines innoDbStatus)) in Hread. rewrite <- Hinfo in Hread.
  unfold read_lines in Hread.
  set (lines := split newline innoDbStatus) in *.
  set (i := Z.to_nat (findIndex (includes section_marker) lines)) in *.
  destruct (before_terminator_prefix (drop i lines)) as [rest Hrest].
  assert (Hlines : lines = (take i lines ++ b1) ++ info t ++ (a1 ++ rest)).
  { rewrite <- (take_drop i lines) at 1. rewrite Hrest, Hread.
    by rewrite <- !app_assoc. }
  destruct (join_middle nl (take i lines ++ b1) (info t) (a1 ++ rest) Hne) as (a & b & Hj).
  exists a, b. rewrite <- Hj, <- Hlines. unfold lines, nl.
  symmetry. apply join_split.
Qed.

Lemma transaction_text_verbatim_witness :
  parseInnoDbStatus report_two_threads = Return dict_two_threads
  ∧ ∃ a b, report_two_threads =
           a +:+ join nl [start_line; thread_line; "MariaDB thread id 8, bar"] +:+ b.
Proof.
  assert (H : parseInnoDbStatus report_two_threads = Return dict_two_threads)
    by (vm_compute; reflexivity).
  split; [exact H |].
  refine (transaction_text_verbatim report_two_threads dict_two_threads (Num 7)
            {| activeTime := Num 5;
               info := [start_line; thread_line; "MariaDB thread id 8, bar"] |} H _).
  vm_compute. reflexivity.
Defined.

(** ** The parser: what it does not read *)

Lemma split_app_sep (sep : ascii) (a b : string) :
  split sep (a +:+ String sep b) = split sep a ++ split sep b.
Proof.
  induction a as [|c a IH].
  - rewrite string_app_nil. simpl. by rewrite Ascii.eqb_refl.
  - rewrite string_app_cons. cbn [split]. rewrite IH.
    destruct (Ascii.eqb c sep); [reflexivity |].
    destruct (split sep a) as [|x xs] eqn:Ha; [by apply split_nonempty in Ha |].
    reflexivity.
Qed.

Lemma findIndex_from_found {A} (p : A → bool) (l : list A) (x : A) (i : Z) :
  x ∈ l → p x = true →
  findIndex_from p l i = (i + findIndex_from p l 0)%Z
  ∧ (0 <= findIndex_from p l 0 < Z.of_nat (length l))%Z.
Proof.
  intros Hin Hx. revert i. induction l as [|y l IH]; intros i.
  - by apply elem_of_nil in Hin.
  - cbn [findIndex_from length]. destruct (p y) eqn:Hy; [split; lia |].
    assert (Hin' : x ∈ l).
    { apply elem_of_cons in Hin as [-> | Hin]; [congruence | assumption]. }
    destruct (IH Hin' (i + 1)%Z) as [-> _].
    destruct (IH Hin' (0 + 1)%Z) as [-> Hb]. lia.
Qed.

Lemma findIndex_app_l {A} (p : A → bool) (l1 l2 : list A) (x : A) :
  x ∈ l1 → p x = true → findIndex p (l1 ++ l2) = findIndex p l1.
Proof.
  unfold findIndex. generalize 0%Z as i.
  induction l1 as [|y l1 IH]; intros i Hin Hx.
  - by apply elem_of_nil in Hin.
  - simpl. destruct (p y) eqn:Hy; [reflexivity |].
    apply IH; [| assumption].
    apply elem_of_cons in Hin as [-> | Hin]; [congruence | assumption].
Qed.

Lemma findIndex_app_r {A} (p : A → bool) (l1 l2 : list A) (x : A) :
  Forall (λ y, p y = false) l1 → x ∈ l2 → p x = true →
  findIndex p (l1 ++ l2) = (Z.of_nat (length l1) + findIndex p l2)%Z.
Proof.
  unfold findIndex. intros Hall Hin Hx.
  assert (H : ∀ i, findIndex_from p (l1 ++ l2) i
                   = findIndex_from p l2 (i + Z.of_nat (length l1))%Z).
  { induction Hall as [|y l1 Hy _ IH]; intros i.
    - simpl. by rewrite Z.add_0_r.
    - simpl. rewrite Hy, IH. f_equal. lia. }
  rewrite H. destruct (findIndex_from_found p l2 x (0 + Z.of_nat (length l1)) Hin Hx) as [-> _].
  lia.
Qed.

Lemma before_terminator_cut (ls rest : list string) (term : string) :
  isTerminator term = true →
  before_terminator (ls ++ term :: rest) = before_terminator (ls ++ [term]).
Proof.
  intros Ht. induction ls as [|l ls IH]; simpl.
  - by rewrite Ht.
  - destruct (isTerminator l); [reflexivity | by rewrite IH].
Qed.

(** X14. What stands before the section is not read: putting lines without
    the section marker in front of a status text does not change what the
    parser returns (or that it throws). *)
Theorem text_before_section_ignored (before innoDbStatus : string) :
  Forall (λ line, includes section_marker line = false) (split newline before) →
  parseInnoDbStatus (before +:+ nl +:+ innoDbStatus) = parseInnoDbStatus innoDbStatus.
Proof.
  intros Hbefore.
  assert (Hsplit : split newline (before +:+ nl +:+ innoDbStatus)
                   = split newline before ++ split newline innoDbStatus)
    by apply split_app_sep.
  destruct (marker_cases innoDbStatus) as [Hno | (line & Hin & Hline)].
  - rewrite !parseInnoDbStatus_no_marker; [reflexivity | assumption |].
    rewrite Hsplit. by apply Forall_app.
  - rewrite (parseInnoDbStatus_marker innoDbStatus line Hin Hline).
    rewrite (parseInnoDbStatus_marker _ line); [| | assumption].
    2:{ rewrite Hsplit. apply elem_of_app. by right. }
    assert (Hread : read_lines (before +:+ nl +:+ innoDbStatus) = read_lines innoDbStatus).
    { unfold read_lines. rewrite Hsplit.
      rewrite (findIndex_app_r _ _ _ line Hbefore Hin Hline).
      destruct (findIndex_from_found (includes section_marker)
                  (split newline innoDbStatus) line 0 Hin Hline) as [_ Hb].
      fold (findIndex (includes section_marker) (split newline innoDbStatus)) in Hb.
      rewrite Z2Nat.inj_add, Nat2Z.id by lia.
      by rewrite drop_app_add. }
    by rewrite Hread.
Qed.

Lemma text_before_section_ignored_witness :
  parseInnoDbStatus ("BACKGROUND THREAD" +:+ nl +:+ scenarioA) = parseInnoDbStatus scenarioA.
Proof.
  apply text_before_section_ignored. repeat constructor.
Defined.

(** X15. What stands behind the terminator line is not read: when the text
    has a line with the section marker, whatever follows a later line that
    begins with [--------] does not change what the parser returns. *)
Theorem text_after_terminator_ignored (innoDbStatus line term rest : string) :
  line ∈ split newline innoDbStatus →
  includes section_marker line = true →
  isTerminator term = true →
  split newline term = [term] →
  parseInnoDbStatus (innoDbStatus +:+ nl +:+ term +:+ nl +:+ rest) =
  parseInnoDbStatus (innoDbStatus +:+ nl +:+ term).
Proof.
  intros Hin Hline Hterm Hone.
  assert (H1 : split newline (innoDbStatus +:+ nl +:+ term +:+ nl +:+ rest)
               = split newline innoDbStatus ++ term :: split newline rest).
  { unfold nl. rewrite string_app_cons, string_app_nil, split_app_sep.
    rewrite string_app_cons, string_app_nil, split_app_sep. by rewrite Hone. }
  assert (H2 : split newline (innoDbStatus +:+ nl +:+ term)
               = split newline innoDbStatus ++ [term]).
  { unfold nl. rewrite string_app_cons, string_app_nil, split_app_sep. by rewrite Hone. }
  rewrite (parseInnoDbStatus_marker _ line); [| | assumption].
  2:{ rewrite H1. apply elem_of_app. by left. }
  rewrite (parseInnoDbStatus_marker (innoDbStatus +:+ nl +:+ term) line); [| | assumption].
  2:{ rewrite H2. apply elem_of_app. by left. }
  assert (Hread : read_lines (innoDbStatus +:+ nl +:+ term +:+ nl +:+ rest)
                  = read_lines (innoDbStatus +:+ nl +:+ term)).
  { unfold read_lines. rewrite H1, H2.
    rewrite !(findIndex_app_l _ _ _ line Hin Hline).
    destruct (findIndex_from_found (includes section_marker)
                (split newline innoDbStatus) line 0 Hin Hline) as [_ Hb].
    fold (findIndex (includes section_marker) (split newline innoDbStatus)) in Hb.
    rewrite !drop_app_le by lia.
    by apply before_terminator_cut. }
  by rewrite Hread.
Qed.

Lemma text_after_terminator_ignored_witness :
  parseInnoDbStatus (report_with_query +:+ nl +:+ "--------" +:+ nl
                     +:+ "MariaDB thread id 9, late") =
  parseInnoDbStatus (report_with_query +:+ nl +:+ "--------").
Proof.
  apply (text_after_terminator_ignored report_with_query marker_line).
  - apply list_elem_of_here.
  - reflexivity.
  - reflexivity.
  - reflexivity.
Defined.

(** X16. An id line without a fourth word (or with an empty one, after two
    spaces) has the key NaN: [parseInt] is given [undefined] or the empty
    string.  The loop stores the current accumulator under NaN. *)
Theorem thread_line_without_number (line : string) (st : parser_state) :
  isThread line = true →
  split " " line !! 3%nat = None ∨ split " " line !! 3%nat = Some "" →
  threadId line = NaN
  ∧ transactions (loop_body line st) !! NaN = Some (current st).
Proof.
  intros Hth Htok.
  assert (Hkey : threadId line = NaN).
  { unfold threadId. by destruct Htok as [-> | ->]. }
  split; [exact Hkey |].
  rewrite loop_body_transactions, Hth, Hkey, lookup_insert_eq.
  rewrite loop_body_current. by rewrite (thread_not_start _ Hth).
Qed.

Lemma thread_line_without_number_witness :
  threadId "MariaDB thread id" = NaN
  ∧ transactions (loop_body "MariaDB thread id" initial_state) !! NaN = Some 0%nat.
Proof.
  apply (thread_line_without_number "MariaDB thread id" initial_state).
  - reflexivity.
  - by left.
Defined.
